(** * Glob resolution of godo (package gosu, file glob.go)

    A shallow embedding of [patternRoot], [hasMeta], [Globexp], [walkFiles]
    and [Glob], together with a model of the part of Go's [strings] and
    [regexp] packages they call, and the properties of the specification
    that are stated about them.

    Conventions.
    - A Go [string] is a byte string; it is modelled by Rocq's [string]
      (a list of 8-bit [ascii]).  [Globexp] scans its argument rune by
      rune; the model scans it byte by byte, which is the same scan on
      ASCII text, and copies every byte above 127 unchanged, which is what
      the source does on valid UTF-8.
    - [regexp] is Go's standard library, not a part of this repository.
      It is modelled in module [regexp] below, following the documented
      syntax and semantics of [regexp/syntax] with the [Perl] flags that
      [regexp.Compile] uses. *)

From Stdlib Require Import Ascii String List ZArith Lia Bool.
From stdpp Require Import gmap strings list fin_maps.

Local Open Scope char_scope.
Local Open Scope string_scope.
Local Open Scope list_scope.

(* ===================================================================== *)
(** * Package [strings] *)
(* ===================================================================== *)

Module GoStrings.

(** [strings.HasPrefix(s, prefix)]. *)
Definition HasPrefix (s prefix : string) : bool := String.prefix prefix s.

(** [strings.Split(s, sep)] for a separator of one byte: the pieces of
    [s] between the occurrences of [sep]; [n] occurrences give [n + 1]
    pieces, so the result is never empty. *)
Fixpoint Split (s : string) (sep : ascii) : list string :=
  match s with
  | EmptyString => [EmptyString]
  | String c s' =>
      let r := Split s' sep in
      if Ascii.eqb c sep then EmptyString :: r
      else String c (hd EmptyString r) :: tl r
  end.

(** [c] occurs in [chars]. *)
Fixpoint ContainsByte (chars : string) (c : ascii) : bool :=
  match chars with
  | EmptyString => false
  | String d chars' => Ascii.eqb c d || ContainsByte chars' c
  end.

(** [strings.IndexAny(s, chars)]: the index of the first byte of [s]
    that occurs in [chars], or [-1]. *)
Fixpoint IndexAny (s chars : string) : Z :=
  match s with
  | EmptyString => (-1)%Z
  | String c s' =>
      if ContainsByte chars c then 0%Z
      else let i := IndexAny s' chars in
           if (i <? 0)%Z then (-1)%Z else (i + 1)%Z
  end.

(** [strings.Join(elems, sep)]. *)
Fixpoint Join (elems : list string) (sep : string) : string :=
  match elems with
  | [] => EmptyString
  | [e] => e
  | e :: rest => e +:+ sep +:+ Join rest sep
  end.

End GoStrings.

Import GoStrings.

(* ===================================================================== *)
(** * Root inference: [hasMeta] and [patternRoot] *)
(* ===================================================================== *)

(** [hasMeta]: the path has one of the characters used to build a Regexp. *)
Definition hasMeta (path : string) : bool :=
  (0 <=? IndexAny path "*?[{")%Z.

(** The loop of [patternRoot]:
    [for i < l-1 { part := parts[i]; if hasMeta(part) { break }; ... }].
    The list is what is left of [parts] from index [i] on; the last
    element of [parts] is never visited. *)
Fixpoint patternRootLoop (root : string) (parts : list string) : string :=
  match parts with
  | part :: (_ :: _) as rest =>
      if hasMeta part then root
      else patternRootLoop
             (if String.eqb root "" then part else root +:+ "/" +:+ part)
             rest
  | _ => root
  end.

(** [patternRoot]: the directory a walk for the pattern starts from. *)
Definition patternRoot (s : string) : string :=
  if HasPrefix s "!" then ""
  else
    let parts := Split s "/" in
    if (length parts =? 1)%nat then "./"
    else
      let root := patternRootLoop "" parts in
      if String.eqb root "" then "." else root.

(** The root as section 4.2 of the specification words it, for a pattern
    that is not a negation: ["./"] without a [/]; otherwise the directory
    segments that come before the first segment with a metacharacter,
    joined by [/], and ["."] when the first segment has one. *)
Fixpoint literalPrefix (parts : list string) : list string :=
  match parts with
  | part :: (_ :: _) as rest =>
      if hasMeta part then [] else part :: literalPrefix rest
  | _ => []
  end.

Definition specRoot (s : string) : string :=
  let parts := Split s "/" in
  if (length parts =? 1)%nat then "./"
  else if hasMeta (hd "" parts) then "."
  else Join (literalPrefix parts) "/".

(** Some byte of [s] occurs in [chars]: what [IndexAny s chars >= 0] tests. *)
Fixpoint containsAny (s chars : string) : bool :=
  match s with
  | EmptyString => false
  | String c s' => ContainsByte chars c || containsAny s' chars
  end.

(** The segments left once the empty ones in front are gone. *)
Fixpoint dropEmpty (parts : list string) : list string :=
  match parts with
  | EmptyString :: parts' => dropEmpty parts'
  | _ => parts
  end.

(* ===================================================================== *)
(** * Package [regexp] *)
(* ===================================================================== *)

Module regexp.

(** The error codes of [regexp/syntax] that the modelled syntax can raise.
    [ErrNotModelled] is not a Go error: it marks syntax that this model
    leaves out (flags and named groups after [(?], counted repetition
    with a brace, Unicode classes, escapes of letters and digits other than
    the Perl classes).  [Globexp] never writes any of it. *)
Inductive ErrorCode :=
| ErrInvalidCharRange
| ErrInvalidEscape
| ErrInvalidRepeatOp
| ErrMissingBracket
| ErrMissingParen
| ErrMissingRepeatArgument
| ErrTrailingBackslash
| ErrUnexpectedParen
| ErrNotModelled.

(** A member of a character class: a list of byte ranges, or the
    complement of one (a negated Perl or POSIX class). *)
Record classItem := ClassItem {
  complemented : bool;
  ranges : list (ascii * ascii)
}.

(** [syntax.Regexp]: the parsed expression. *)
Inductive node :=
| OpEmptyMatch
| OpLiteral (c : ascii)
| OpCharClass (negated : bool) (items : list classItem)
| OpAnyCharNotNL
| OpBeginText
| OpEndText
| OpCapture (sub : node)
| OpStar (sub : node)
| OpPlus (sub : node)
| OpQuest (sub : node)
| OpConcat (a b : node)
| OpAlternate (a b : node).

(** ** Character tables *)

Definition rng (lo hi : ascii) : ascii * ascii := (lo, hi).

Definition byteLe (a b : ascii) : bool := (N_of_ascii a <=? N_of_ascii b)%N.

Definition inRange (c : ascii) (r : ascii * ascii) : bool :=
  byteLe (fst r) c && byteLe c (snd r).

Definition isalnum (c : ascii) : bool :=
  inRange c (rng "0" "9") || inRange c (rng "A" "Z") || inRange c (rng "a" "z").

(** An escaped character that stands for itself: below [utf8.RuneSelf]
    and not a letter or a digit. *)
Definition isPunctEscape (c : ascii) : bool :=
  (N_of_ascii c <? 128)%N && negb (isalnum c).

(** [perlGroup]: the classes [\d], [\s], [\w] and their complements. *)
Definition perlGroup (c : ascii) : option classItem :=
  match c with
  | "d"%char => Some (ClassItem false [rng "0" "9"])
  | "D"%char => Some (ClassItem true [rng "0" "9"])
  | "s"%char => Some (ClassItem false [rng "009" "010"; rng "012" "013"; rng " " " "])
  | "S"%char => Some (ClassItem true [rng "009" "010"; rng "012" "013"; rng " " " "])
  | "w"%char => Some (ClassItem false [rng "0" "9"; rng "A" "Z"; rng "_" "_"; rng "a" "z"])
  | "W"%char => Some (ClassItem true [rng "0" "9"; rng "A" "Z"; rng "_" "_"; rng "a" "z"])
  | _ => None
  end.

Definition posixTable : list (string * list (ascii * ascii)) :=
  [ ("alnum", [rng "0" "9"; rng "A" "Z"; rng "a" "z"]);
    ("alpha", [rng "A" "Z"; rng "a" "z"]);
    ("ascii", [rng "000" "127"]);
    ("blank", [rng "009" "009"; rng " " " "]);
    ("cntrl", [rng "000" "031"; rng "127" "127"]);
    ("digit", [rng "0" "9"]);
    ("graph", [rng "!" "~"]);
    ("lower", [rng "a" "z"]);
    ("print", [rng " " "~"]);
    ("punct", [rng "!" "/"; rng ":" "@"; rng "[" "`"; rng "{" "~"]);
    ("space", [rng "009" "013"; rng " " " "]);
    ("upper", [rng "A" "Z"]);
    ("word", [rng "0" "9"; rng "A" "Z"; rng "_" "_"; rng "a" "z"]);
    ("xdigit", [rng "0" "9"; rng "A" "F"; rng "a" "f"]) ].

Fixpoint lookupRanges (name : string)
    (table : list (string * list (ascii * ascii))) : option (list (ascii * ascii)) :=
  match table with
  | [] => None
  | (n, rs) :: table' => if String.eqb name n then Some rs else lookupRanges name table'
  end.

(** [posixGroup]: [name] is what stands between [[:] and [:]]; a leading
    [^] complements the class. *)
Definition posixGroup (name : string) : option classItem :=
  match name with
  | String "^" name' => ClassItem true <$> lookupRanges name' posixTable
  | _ => ClassItem false <$> lookupRanges name posixTable
  end.

(** ** The parser *)

(** The operands collected at one nesting level of the parser's stack:
    the alternatives already closed by a vertical bar and the
    concatenation under construction, both latest first. *)
Record frame := Frame {
  alts : list node;
  cur : list node
}.

(** The class between brackets under construction. *)
Record classState := ClassState {
  clsNegated : bool;
  clsFirst : bool;
  clsItems : list classItem
}.

(** The parser: the frames of the parentheses still open (innermost
    first, with whether the group captures), the frame being filled,
    whether the last token was a repetition operator, and the class being
    read when the cursor is between brackets. *)
Record parser := Parser {
  stack : list (frame * bool);
  top : frame;
  lastRepeat : bool;
  class : option classState
}.

Definition emptyFrame : frame := Frame [] [].

Definition pushNode (x : node) (f : frame) : frame :=
  Frame (alts f) (x :: cur f).

(** [p.concat()]: the concatenation of the operands of the frame. *)
Definition concat (items : list node) : node :=
  match items with
  | [] => OpEmptyMatch
  | x :: xs => fold_left (fun acc y => OpConcat y acc) xs x
  end.

(** [p.alternate()]: the alternation of the closed alternatives and of
    the current concatenation. *)
Definition alternate (f : frame) : node :=
  fold_left (fun acc y => OpAlternate y acc) (alts f) (concat (cur f)).

(** A token read outside brackets that pushes one operand. *)
Definition operand (x : node) (p : parser) : parser :=
  Parser (stack p) (pushNode x (top p)) false None.

(** [p.repeat]: a repetition operator applies to the last operand; two
    in a row are rejected (Perl mode), and so is one without operand. *)
Definition repeat (op : node -> node) (p : parser) : ErrorCode + parser :=
  if lastRepeat p then inl ErrInvalidRepeatOp
  else match cur (top p) with
       | [] => inl ErrMissingRepeatArgument
       | x :: xs => inr (Parser (stack p) (Frame (alts (top p)) (op x :: xs)) true None)
       end.

(** [p.parseEscape] on the character after the backslash. *)
Definition parseEscape (c : ascii) : ErrorCode + ascii :=
  if isPunctEscape c then inr c
  else if (N_of_ascii c <? 128)%N then inl ErrNotModelled
  else inl ErrInvalidEscape.

(** [p.parseClassChar]: one character of a class, with its width. *)
Definition parseClassChar (t : string) : ErrorCode + (ascii * nat) :=
  match t with
  | EmptyString => inl ErrMissingBracket
  | String "\" EmptyString => inl ErrTrailingBackslash
  | String "\" (String c _) =>
      match parseEscape c with
      | inl e => inl e
      | inr c' => inr (c', 2)
      end
  | String c _ => inr (c, 1)
  end.

Definition addItem (it : classItem) (cs : classState) (p : parser) : parser :=
  Parser (stack p) (top p) false
         (Some (ClassState (clsNegated cs) false (clsItems cs ++ [it]))).

(** The index of the first occurrence of [":]"] in [t]. *)
Fixpoint indexColonBracket (t : string) : option nat :=
  match t with
  | EmptyString => None
  | String c t' =>
      if HasPrefix t ":]" then Some 0 else S <$> indexColonBracket t'
  end.

Fixpoint dropBytes (n : nat) (t : string) : string :=
  match n, t with
  | S n', String _ t' => dropBytes n' t'
  | _, _ => t
  end.

(** A single character or a simple range of a class. *)
Definition classRange (t : string) (cs : classState) (p : parser)
  : ErrorCode + (parser * nat) :=
  match parseClassChar t with
  | inl e => inl e
  | inr (lo, w) =>
      match dropBytes w t with
      | String "-" (String c _ as t') =>
          if Ascii.eqb c "]" then inr (addItem (ClassItem false [(lo, lo)]) cs p, w)
          else match parseClassChar t' with
               | inl e => inl e
               | inr (hi, w') =>
                   if byteLe lo hi
                   then inr (addItem (ClassItem false [(lo, hi)]) cs p, w + 1 + w')
                   else inl ErrInvalidCharRange
               end
      | _ => inr (addItem (ClassItem false [(lo, lo)]) cs p, w)
      end
  end.

(** One round of the loop of [p.parseClass], at a cursor [t] between
    brackets: the parser after the token and the width of the token. *)
Definition classToken (t : string) (cs : classState) (p : parser)
  : ErrorCode + (parser * nat) :=
  match t with
  | String "]" _ =>
      if clsFirst cs then classRange t cs p
      else inr (operand (OpCharClass (clsNegated cs) (clsItems cs)) p, 1)
  | String "[" (String ":" (String _ _ as t')) =>
      match indexColonBracket t' with
      | Some i =>
          match posixGroup (String.substring 0 i t') with
          | Some it => inr (addItem it cs p, i + 4)
          | None => inl ErrInvalidCharRange
          end
      | None => classRange t cs p
      end
  | String "\" (String c _) =>
      if Ascii.eqb c "p" || Ascii.eqb c "P" then inl ErrNotModelled
      else match perlGroup c with
           | Some it => inr (addItem it cs p, 2)
           | None => classRange t cs p
           end
  | _ => classRange t cs p
  end.

(** One round of the loop of [parse], at a cursor [t] outside brackets. *)
Definition token (t : string) (p : parser) : ErrorCode + (parser * nat) :=
  match t with
  | EmptyString => inr (p, 0)
  | String "(" t' =>
      if HasPrefix t' "?" then
        if HasPrefix t' "?:"
        then inr (Parser ((top p, false) :: stack p) emptyFrame false None, 3)
        else inl ErrNotModelled
      else inr (Parser ((top p, true) :: stack p) emptyFrame false None, 1)
  | String "|" _ =>
      inr (Parser (stack p) (Frame (concat (cur (top p)) :: alts (top p)) []) false None, 1)
  | String ")" _ =>
      match stack p with
      | [] => inl ErrUnexpectedParen
      | (parent, capture) :: stack' =>
          let sub := alternate (top p) in
          inr (Parser stack'
                      (pushNode (if capture then OpCapture sub else sub) parent)
                      false None, 1)
      end
  | String "^" _ => inr (operand OpBeginText p, 1)
  | String "$" _ => inr (operand OpEndText p, 1)
  | String "." _ => inr (operand OpAnyCharNotNL p, 1)
  | String "[" t' =>
      if HasPrefix t' "^"
      then inr (Parser (stack p) (top p) false (Some (ClassState true true [])), 2)
      else inr (Parser (stack p) (top p) false (Some (ClassState false true [])), 1)
  | String "*" t' =>
      match repeat OpStar p with
      | inl e => inl e
      | inr p' => inr (p', if HasPrefix t' "?" then 2 else 1)
      end
  | String "+" t' =>
      match repeat OpPlus p with
      | inl e => inl e
      | inr p' => inr (p', if HasPrefix t' "?" then 2 else 1)
      end
  | String "?" t' =>
      match repeat OpQuest p with
      | inl e => inl e
      | inr p' => inr (p', if HasPrefix t' "?" then 2 else 1)
      end
  | String "{" _ => inl ErrNotModelled
  | String "\" EmptyString => inl ErrTrailingBackslash
  | String "\" (String c _) =>
      match perlGroup c with
      | Some it => inr (operand (OpCharClass false [it]) p, 2)
      | None =>
          match parseEscape c with
          | inl e => inl e
          | inr c' => inr (operand (OpLiteral c') p, 2)
          end
      end
  | String c _ => inr (operand (OpLiteral c) p, 1)
  end.

(** The end of the expression: a class or a parenthesis still open is an
    error; otherwise the expression is the alternation of the frame. *)
Definition finish (p : parser) : ErrorCode + node :=
  match class p with
  | Some _ => inl ErrMissingBracket
  | None =>
      match stack p with
      | [] => inr (alternate (top p))
      | _ :: _ => inl ErrMissingParen
      end
  end.

(** The loop of [parse]: [for t != "" { ... t = t[w:] }].  The cursor
    moves one byte per call; [skip] counts the bytes of the current token
    that are still to be passed.  A token lies within the text, so [skip]
    is [0] when the text ends. *)
Fixpoint parseLoop (t : string) (skip : nat) (p : parser) : ErrorCode + node :=
  match t with
  | EmptyString => finish p
  | String _ t' =>
      match skip with
      | S skip' => parseLoop t' skip' p
      | O =>
          match (match class p with
                 | Some cs => classToken t cs p
                 | None => token t p
                 end) with
          | inl e => inl e
          | inr (p', w) => parseLoop t' (w - 1) p'
          end
      end
  end.

(** [syntax.Parse(s, syntax.Perl)]. *)
Definition Parse (s : string) : ErrorCode + node :=
  parseLoop s 0 (Parser [] emptyFrame false None).

(** ** Matching *)

Definition inItem (c : ascii) (it : classItem) : bool :=
  xorb (complemented it) (existsb (inRange c) (ranges it)).

Definition inClass (negated : bool) (items : list classItem) (c : ascii) : bool :=
  xorb negated (existsb (inItem c) items).

(** The ways to cut a text in two. *)
Fixpoint splits (l : list ascii) : list (list ascii * list ascii) :=
  match l with
  | [] => [([], [])]
  | c :: l' => ([], l) :: map (fun '(a, b) => (c :: a, b)) (splits l')
  end.

Definition isNil (l : list ascii) : bool :=
  match l with [] => true | _ :: _ => false end.

(** Some element of [l] satisfies [f]; the search stops at the first. *)
Fixpoint some {A : Type} (f : A -> bool) (l : list A) : bool :=
  match l with
  | [] => false
  | a :: l' => if f a then true else some f l'
  end.

(** [mid] is a sequence of non-empty pieces that [f] matches one after
    the other.  Each piece takes a byte, so [length mid] rounds do. *)
Fixpoint matchStar (f : list ascii -> list ascii -> list ascii -> bool)
    (rounds : nat) (pre mid post : list ascii) : bool :=
  match mid with
  | [] => true
  | _ :: _ =>
      match rounds with
      | O => false
      | S rounds' =>
          some (fun '(m1, m2) =>
                  if isNil m1 then false
                  else if f pre m1 (m2 ++ post)
                       then matchStar f rounds' (pre ++ m1) m2 post
                       else false)
               (splits mid)
      end
  end.

(** [matches re pre mid post]: the expression matches the part [mid] of
    the text [pre ++ mid ++ post].  The text around [mid] decides the
    empty-width operators: without flags [^] holds at the beginning of
    the text and [$] at its end. *)
Fixpoint matches (re : node) (pre mid post : list ascii) : bool :=
  match re with
  | OpEmptyMatch => isNil mid
  | OpLiteral c => match mid with [d] => Ascii.eqb c d | _ => false end
  | OpCharClass negated items =>
      match mid with [d] => inClass negated items d | _ => false end
  | OpAnyCharNotNL =>
      match mid with [d] => negb (Ascii.eqb d "010") | _ => false end
  | OpBeginText => if isNil mid then isNil pre else false
  | OpEndText => if isNil mid then isNil post else false
  | OpCapture sub => matches sub pre mid post
  | OpStar sub => matchStar (matches sub) (length mid) pre mid post
  | OpPlus sub =>
      some (fun '(m1, m2) =>
              if matches sub pre m1 (m2 ++ post)
              then matchStar (matches sub) (length m2) (pre ++ m1) m2 post
              else false)
           (splits mid)
  | OpQuest sub => if isNil mid then true else matches sub pre mid post
  | OpConcat a b =>
      some (fun '(m1, m2) =>
              if matches a pre m1 (m2 ++ post)
              then matches b (pre ++ m1) m2 post
              else false)
           (splits mid)
  | OpAlternate a b =>
      if matches a pre mid post then true else matches b pre mid post
  end.

(** [regexp.Regexp]: the source text and the parsed expression. *)
Record Regexp := mkRegexp {
  expr : string;
  prog : node
}.

(** [regexp.Compile]. *)
Definition Compile (str : string) : ErrorCode + Regexp :=
  match Parse str with
  | inl e => inl e
  | inr re => inr (mkRegexp str re)
  end.

(** [Regexp.MatchString]: the text has a part that the expression
    matches. *)
Definition MatchString (re : Regexp) (s : string) : bool :=
  some (fun '(pre, rest) =>
          some (fun '(mid, post) => matches (prog re) pre mid post)
               (splits rest))
       (splits (list_ascii_of_string s)).

(** The expression matches the whole text. *)
Definition FullMatch (re : Regexp) (s : string) : bool :=
  matches (prog re) [] (list_ascii_of_string s) [].

End regexp.

(* ===================================================================== *)
(** * Panics *)
(* ===================================================================== *)

(** The value of a Go [panic]: the one [regexp.MustCompile] raises for a
    source that does not parse, or the one of [util.Panic]. *)
Inductive panic :=
| PanicCompile (str : string) (err : regexp.ErrorCode)
| PanicMessage (group msg : string).

(** A computation that returns or panics. *)
Inductive outcome (A : Type) :=
| Value (a : A)
| Panics (p : panic).

Arguments Value {A} a.
Arguments Panics {A} p.

(** [regexp.MustCompile]: like [Compile] but panics if the expression
    cannot be parsed. *)
Definition MustCompile (str : string) : outcome regexp.Regexp :=
  match regexp.Compile str with
  | inl e => Panics (PanicCompile str e)
  | inr re => Value re
  end.

(** Modelled from the spec: [util.Panic] (package [util] is not among the
    sources).  Section 7 of the specification makes the empty root fatal:
    resolution aborts at once and surfaces the offending pattern; so the
    call panics with the format filled in by its argument. *)
Definition utilPanic (group format arg : string) : panic :=
  PanicMessage group (format +:+ arg).

(* ===================================================================== *)
(** * The pattern compiler: [Globexp] *)
(* ===================================================================== *)

(** NotSlash is any rune but path separator. *)
Definition notSlash : string := "[^/]".
(** AnyRune is zero or more non-path separators. *)
Definition anyRune : string := notSlash +:+ "*".
(** ZeroOrMoreDirectories is used by the double star patterns. *)
Definition zeroOrMoreDirectories : string := "((?:[\w\.\-]+\/)*)".

(** The body of the loop of [Globexp] for the rune [r] at the cursor,
    where [rest] is [glob[i:]]: what is written to the buffer, the width
    [w] the cursor moves by, and [inGroup] afterwards. *)
Definition globexpRune (r : ascii) (rest : string) (inGroup : bool)
  : string * nat * bool :=
  match r with
  | "\"%char | "$"%char | "^"%char | "+"%char | "."%char
  | "("%char | ")"%char | "="%char | "!"%char | "|"%char =>
      (String "\" (String r ""), 1, inGroup)
  | "/"%char =>
      if HasPrefix rest "/**/" then ("/" +:+ zeroOrMoreDirectories, 4, inGroup)
      else if String.eqb rest "/**" then ("/" +:+ ".*", 3, inGroup)
      else ("/", 1, inGroup)
  | "?"%char => (".", 1, inGroup)
  | "["%char | "]"%char => (String r "", 1, inGroup)
  | "{"%char => ("(", 1, true)
  | "}"%char => (")", 1, false)
  | ","%char =>
      if inGroup then ("|", 1, inGroup)
      else (String "\" (String r ""), 1, inGroup)
  | "*"%char =>
      if HasPrefix rest "**/" then (zeroOrMoreDirectories, 3, inGroup)
      else (anyRune, 1, inGroup)
  | _ => (String r "", 1, inGroup)
  end.

(** The loop of [Globexp]: [for i < len(glob) { ...; i += w }].  The
    cursor moves one byte per call; [skip] counts the bytes of the
    construct just translated that are still to be passed; a construct
    lies within the pattern, so [skip] is [0] when the pattern ends.  The
    result is what the loop writes to the buffer. *)
Fixpoint globexpLoop (glob : string) (skip : nat) (inGroup : bool) : string :=
  match glob with
  | EmptyString => ""
  | String r glob' =>
      match skip with
      | S skip' => globexpLoop glob' skip' inGroup
      | O =>
          let '(out, w, inGroup') := globexpRune r glob inGroup in
          out +:+ globexpLoop glob' (w - 1) inGroup'
      end
  end.

(** The content of the buffer at the end of [Globexp]. *)
Definition globexpSource (glob : string) : string :=
  "^" +:+ globexpLoop glob 0 false +:+ "$".

(** [Globexp]: the Regexp built from an extended glob pattern. *)
Definition Globexp (glob : string) : outcome regexp.Regexp :=
  MustCompile (globexpSource glob).

(* ===================================================================== *)
(** * The resolution engine: [walkFiles] and [Glob] *)
(* ===================================================================== *)

(** [RegexpInfo]: a Regexp and whether its pattern was a negation. *)
Record RegexpInfo := mkRegexpInfo {
  Regexp : regexp.Regexp;
  Negate : bool
}.

(** [pattern[1:]]. *)
Definition dropFirst (pattern : string) : string :=
  match pattern with
  | EmptyString => ""
  | String _ pattern' => pattern'
  end.

Section Resolution.

(** [os.FileInfo] and Go's [error] are opaque to the engine. *)
Context {FileInfo error : Type}.

(** [FileAsset]: file information and path from globbing. *)
Record FileAsset := mkFileAsset {
  Info : FileInfo;
  Path : string;
  PatternRoot : string
}.

(** What [walk.Walk(root, visitor)] does, for each root: the calls
    [visitor(path, info, err)] it makes, in the order the lock of
    [walkFiles] serialises them, and the error it returns.  The visitor
    of [walkFiles] always returns [nil], so the walk does not depend on
    it. *)
Variable Walk : string -> list (string * FileInfo * option error) * option error.

(** [walkFiles]: the entries visited without error, unless the walk
    fails. *)
Definition walkFiles (root : string) : error + list FileAsset :=
  let '(visits, err) := Walk root in
  let fileAssets :=
    omap (fun '(path, info, e) =>
            match e with
            | None => Some (mkFileAsset info path "")
            | Some _ => None
            end) visits in
  match err with
  | Some e => inl e
  | None => inr fileAssets
  end.

(** The two variables of [Glob]: the map [m] from a path to its asset,
    where the value [None] is the [nil] a negation leaves, and the
    slice [regexps]. *)
Record globState := mkGlobState {
  m : gmap string (option FileAsset);
  regexps : list RegexpInfo
}.

(** How one round of the loop of [Glob] ends. *)
Inductive flow :=
| Continue (st : globState)
| ReturnError (err : error)
| Panicking (p : panic).

(** [for path := range m { if re.MatchString(path) { m[path] = nil } }]. *)
Definition removeMatches (re : regexp.Regexp)
    (m : gmap string (option FileAsset)) : gmap string (option FileAsset) :=
  map_imap (fun path it => Some (if regexp.MatchString re path then None else it)) m.

(** [for _, file := range fileAssets { if re.MatchString(file.Path) {
    tmp := file; tmp.PatternRoot = root; m[file.Path] = tmp } }]. *)
Definition insertMatches (re : regexp.Regexp) (root : string)
    (fileAssets : list FileAsset)
    (m : gmap string (option FileAsset)) : gmap string (option FileAsset) :=
  foldl (fun m file =>
           if regexp.MatchString re (Path file)
           then <[Path file := Some (mkFileAsset (Info file) (Path file) root)]> m
           else m)
        m fileAssets.

(** The body of the loop of [Glob] for one pattern.  [inferRoot] stands
    for [patternRoot]; [Glob] below sets it. *)
Definition globPattern (inferRoot : string -> string)
    (st : globState) (pattern : string) : flow :=
  if HasPrefix pattern "!" then
    match Globexp (dropFirst pattern) with
    | Panics p => Panicking p
    | Value re =>
        Continue (mkGlobState (removeMatches re (m st))
                              (regexps st ++ [mkRegexpInfo re true]))
    end
  else
    match Globexp pattern with
    | Panics p => Panicking p
    | Value re =>
        let regexps' := regexps st ++ [mkRegexpInfo re false] in
        let root := inferRoot pattern in
        if String.eqb root "" then
          Panicking (utilPanic "glob" "Cannot get root from pattern: " pattern)
        else
          match walkFiles root with
          | inl err => ReturnError err
          | inr fileAssets =>
              Continue (mkGlobState (insertMatches re root fileAssets (m st)) regexps')
          end
    end.

(** [for _, pattern := range patterns { ... }]. *)
Fixpoint globLoop (inferRoot : string -> string)
    (patterns : list string) (st : globState) : flow :=
  match patterns with
  | [] => Continue st
  | pattern :: patterns' =>
      match globPattern inferRoot st pattern with
      | Continue st' => globLoop inferRoot patterns' st'
      | stop => stop
      end
  end.

(** What [Glob] gives back: its results, the error of a walk, or a
    panic. *)
Inductive globResult :=
| Returned (keys : list FileAsset) (regexps : list RegexpInfo)
| Failed (err : error)
| Panicked (p : panic).

(** [for _, it := range m { if it != nil { keys = append(keys, it) } }].
    Go leaves the order of the iteration open; the list is in one of the
    possible orders. *)
Definition collectKeys (m : gmap string (option FileAsset)) : list FileAsset :=
  omap snd (map_to_list m).

Definition globWith (inferRoot : string -> string) (patterns : list string)
  : globResult :=
  match globLoop inferRoot patterns (mkGlobState ∅ []) with
  | Continue st => Returned (collectKeys (m st)) (regexps st)
  | ReturnError err => Failed err
  | Panicking p => Panicked p
  end.

(** [Glob]: the files and directories that match the patterns. *)
Definition Glob (patterns : list string) : globResult :=
  globWith patternRoot patterns.

End Resolution.

Arguments FileAsset : clear implicits.
Arguments globState : clear implicits.
Arguments flow : clear implicits.
Arguments globResult : clear implicits.

(* ===================================================================== *)
(** * What an expression matches *)
(* ===================================================================== *)

(** The relation that [regexp.matches] decides: the expression matches the
    part [mid] of the text [pre ++ mid ++ post]. *)
Inductive Matches : regexp.node -> list ascii -> list ascii -> list ascii -> Prop :=
| MatchesEmpty pre post :
    Matches regexp.OpEmptyMatch pre [] post
| MatchesLiteral c pre post :
    Matches (regexp.OpLiteral c) pre [c] post
| MatchesCharClass negated items d pre post :
    regexp.inClass negated items d = true ->
    Matches (regexp.OpCharClass negated items) pre [d] post
| MatchesAnyCharNotNL d pre post :
    d <> "010"%char ->
    Matches regexp.OpAnyCharNotNL pre [d] post
| MatchesBeginText post :
    Matches regexp.OpBeginText [] [] post
| MatchesEndText pre :
    Matches regexp.OpEndText pre [] []
| MatchesCapture sub pre mid post :
    Matches sub pre mid post ->
    Matches (regexp.OpCapture sub) pre mid post
| MatchesStarNil sub pre post :
    Matches (regexp.OpStar sub) pre [] post
| MatchesStarCons sub pre m1 m2 post :
    m1 <> [] ->
    Matches sub pre m1 (m2 ++ post) ->
    Matches (regexp.OpStar sub) (pre ++ m1) m2 post ->
    Matches (regexp.OpStar sub) pre (m1 ++ m2) post
| MatchesPlus sub pre m1 m2 post :
    Matches sub pre m1 (m2 ++ post) ->
    Matches (regexp.OpStar sub) (pre ++ m1) m2 post ->
    Matches (regexp.OpPlus sub) pre (m1 ++ m2) post
| MatchesQuestNil sub pre post :
    Matches (regexp.OpQuest sub) pre [] post
| MatchesQuest sub pre mid post :
    Matches sub pre mid post ->
    Matches (regexp.OpQuest sub) pre mid post
| MatchesConcat a b pre m1 m2 post :
    Matches a pre m1 (m2 ++ post) ->
    Matches b (pre ++ m1) m2 post ->
    Matches (regexp.OpConcat a b) pre (m1 ++ m2) post
| MatchesAlternateL a b pre mid post :
    Matches a pre mid post ->
    Matches (regexp.OpAlternate a b) pre mid post
| MatchesAlternateR a b pre mid post :
    Matches b pre mid post ->
    Matches (regexp.OpAlternate a b) pre mid post.

(** A byte of a directory name that the double star accepts: a word
    character, a dot or a hyphen. *)
Definition isSegmentByte (c : ascii) : bool :=
  regexp.isalnum c || Ascii.eqb c "_" || Ascii.eqb c "." || Ascii.eqb c "-".

(** Every byte of [s] satisfies [f]. *)
Fixpoint allBytes (f : ascii -> bool) (s : string) : bool :=
  match s with
  | EmptyString => true
  | String c s' => f c && allBytes f s'
  end.

(** The directories [dirs], each followed by the separator. *)
Fixpoint dirPrefix (dirs : list string) : string :=
  match dirs with
  | [] => EmptyString
  | d :: dirs' => d +:+ "/" +:+ dirPrefix dirs'
  end.

(** The class between brackets of [zeroOrMoreDirectories], as parsed. *)
Definition segmentClass : regexp.node :=
  regexp.OpCharClass false
    [regexp.ClassItem false [("0"%char, "9"%char); ("A"%char, "Z"%char);
                             ("_"%char, "_"%char); ("a"%char, "z"%char)];
     regexp.ClassItem false [("."%char, "."%char)];
     regexp.ClassItem false [("-"%char, "-"%char)]].

(** A directory name that the double star accepts. *)
Definition isSegment (d : list ascii) : Prop :=
  d <> [] /\ Forall (fun c => isSegmentByte c = true) d.

(* ===================================================================== *)
(** * What the patterns do to a path *)
(* ===================================================================== *)

(** Whether the walk from [root] reports [p] as an entry without error. *)
Definition visits {FileInfo error : Type}
    (Walk : string -> list (string * FileInfo * option error) * option error)
    (root p : string) : bool :=
  existsb (fun '(path, _, e) =>
             String.eqb path p && match e with None => true | Some _ => false end)
          (fst (Walk root)).

(** Whether the inclusion pattern [q] puts the path [p] into the result
    set: it is not a negation, its walk reports [p], and its expression
    matches [p]. *)
Definition reinserts {FileInfo error : Type}
    (Walk : string -> list (string * FileInfo * option error) * option error)
    (p q : string) : bool :=
  negb (HasPrefix q "!")
  && match Globexp q with
     | Value re => regexp.MatchString re p
     | Panics _ => false
     end
  && visits Walk (patternRoot q) p.

(** Whether the negation pattern [q] takes the path [p] away when it is
    in the result set. *)
Definition removes (p q : string) : bool :=
  HasPrefix q "!"
  && match Globexp (dropFirst q) with
     | Value re => regexp.MatchString re p
     | Panics _ => false
     end.

(** Whether each pattern compiles and each walk succeeds, so that [Glob]
    returns. *)
Definition resolvable {FileInfo error : Type}
    (Walk : string -> list (string * FileInfo * option error) * option error)
    (patterns : list string) : bool :=
  forallb (fun q =>
             if HasPrefix q "!"
             then match Globexp (dropFirst q) with Value _ => true | Panics _ => false end
             else match Globexp q with
                  | Value _ =>
                      match snd (Walk (patternRoot q)) with
                      | None => true
                      | Some _ => false
                      end
                  | Panics _ => false
                  end)
          patterns.

(** The expression is a concatenation that begins with [^] and ends with
    [$]: it can only match a whole text. *)
Fixpoint endsWithEndText (re : regexp.node) : bool :=
  match re with
  | regexp.OpEndText => true
  | regexp.OpConcat _ b => endsWithEndText b
  | _ => false
  end.

Definition anchored (re : regexp.node) : bool :=
  match re with
  | regexp.OpConcat regexp.OpBeginText b => endsWithEndText b
  | _ => false
  end.

(** Every asset of the result set is stored under its own path. *)
Definition keyed {FileInfo : Type}
    (mp : gmap string (option (FileAsset FileInfo))) : Prop :=
  forall q a, mp !! q = Some (Some a) -> Path a = q.

(* ===================================================================== *)
(** * The parser on what [Globexp] writes *)
(* ===================================================================== *)

(** The parser outside brackets and parentheses, with no alternative
    closed: [items] are the operands read so far, latest first. *)
Definition flat (items : list regexp.node) (lastRepeat : bool) : regexp.parser :=
  regexp.Parser [] (regexp.Frame [] items) lastRepeat None.

(** What [zeroOrMoreDirectories] parses to. *)
Definition directoriesNode : regexp.node :=
  regexp.OpCapture
    (regexp.OpStar (regexp.OpConcat (regexp.OpPlus segmentClass) (regexp.OpLiteral "/"))).

(** What [anyRune] parses to. *)
Definition anyRuneNode : regexp.node :=
  regexp.OpStar (regexp.OpCharClass true [regexp.ClassItem false [("/"%char, "/"%char)]]).

(* ===================================================================== *)
(** * Text without wildcards, and the shape of a compiled pattern *)
(* ===================================================================== *)

(** Every byte of [s] is below [utf8.RuneSelf].  [Globexp] decodes its
    argument rune by rune and the embedding scans it byte by byte; on
    ASCII text the two scans are the same, so what is proved below about
    the expression of a whole family of patterns is stated for ASCII
    patterns. *)
Definition isASCII (s : string) : bool :=
  allBytes (fun c => (N_of_ascii c <? 128)%N) s.

(** The expression that matches the [nodes] one after the other. *)
Fixpoint sequence (nodes : list regexp.node) : regexp.node :=
  match nodes with
  | [] => regexp.OpEmptyMatch
  | [x] => x
  | x :: (_ :: _) as rest => regexp.OpConcat x (sequence rest)
  end.

(** The expression that matches [a] or one of [rest]. *)
Fixpoint alternation (a : regexp.node) (rest : list regexp.node) : regexp.node :=
  match rest with
  | [] => a
  | b :: rest' => regexp.OpAlternate a (alternation b rest')
  end.

(** The bytes of [s] as literals. *)
Definition literals (s : string) : list regexp.node :=
  map regexp.OpLiteral (list_ascii_of_string s).

(** The members of a class that lists the bytes of [cs] one by one. *)
Definition classItems (cs : string) : list regexp.classItem :=
  map (fun c => regexp.ClassItem false [(c, c)]) (list_ascii_of_string cs).

(** The entry [r] of [regexps] is the one [Glob] appends for the pattern
    [q]: the expression of the pattern, without its [!] when it is a
    negation, and whether it is a negation. *)
Definition compiledFrom (q : string) (r : RegexpInfo) : Prop :=
  Globexp (if HasPrefix q "!" then dropFirst q else q) = Value (Regexp r)
  /\ Negate r = HasPrefix q "!".

(* ===================================================================== *)
(** * Statements of the specification that the code does not meet *)
(* ===================================================================== *)

(** C2 as the specification states it: a path that a negation has
    tombstoned is not in the output of the invocation, whatever the
    patterns processed afterwards. *)
Definition tombstoneIsFinal : Prop :=
  forall (FileInfo error : Type)
         (Walk : string -> list (string * FileInfo * option error) * option error)
         (ps1 ps2 : list string) (st1 : globState FileInfo) (p : string)
         (keys : list (FileAsset FileInfo)) (rs : list RegexpInfo),
    globLoop Walk patternRoot ps1 (mkGlobState ∅ []) = Continue st1 ->
    m st1 !! p = Some None ->
    Glob Walk (ps1 ++ ps2) = Returned keys rs ->
    forall a, a ∈ keys -> Path a <> p.

(** C6 as the specification states it: a negation pattern whose remainder
    compiles sets to [nil] the entries of the paths whose whole text the
    expression matches, and no other. *)
Definition negationRemovesWholeMatches : Prop :=
  forall (FileInfo error : Type)
         (Walk : string -> list (string * FileInfo * option error) * option error)
         (st : globState FileInfo) (pattern : string) (re : regexp.Regexp),
    Globexp pattern = Value re ->
    exists st',
      globPattern Walk patternRoot st ("!" +:+ pattern) = Continue st'
      /\ regexps st' = regexps st ++ [mkRegexpInfo re true]
      /\ forall p, m st' !! p
                   = (fun it => if regexp.FullMatch re p then None else it) <$> m st !! p.


(* ===================================================================== *)
(** * A sample tree *)
(* ===================================================================== *)

(** A walk over a tree with the files [main.go], [vendor/keep.go] and
    [vendor/lib.go], as [filepath.Walk] reports it: the root as it was
    given, then the entries under it in lexical order with their cleaned
    paths.  A root that does not exist is reported to the visitor with an
    error, and the walk itself returns [nil].  The file information is
    whether the entry is a directory; an error is its message. *)
Definition sampleEntries : list (string * bool * option string) :=
  [ ("main.go", false, None);
    ("vendor", true, None);
    ("vendor/keep.go", false, None);
    ("vendor/lib.go", false, None) ].

Definition sampleWalk (root : string)
  : list (string * bool * option string) * option string :=
  if String.eqb root "." then ((".", true, None) :: sampleEntries, None)
  else if String.eqb root "./" then (("./", true, None) :: sampleEntries, None)
  else if String.eqb root "vendor" then (tl sampleEntries, None)
  else ([(root, false, Some "lstat: no such file or directory")], None).

(* ===================================================================== *)
(** * Properties *)
(* ===================================================================== *)

Example patternRoot_ex1 : patternRoot "a/b/*.go" = "a/b".
Proof. reflexivity. Qed.

Example patternRoot_ex2 : patternRoot "*.go" = "./".
Proof. reflexivity. Qed.

Example patternRoot_ex3 : patternRoot "**/*.go" = ".".
Proof. reflexivity. Qed.

(** ** Strings *)
Lemma append_cons (c : ascii) (a b : string) : String c a +:+ b = String c (a +:+ b).
Proof. reflexivity. Qed.

Lemma append_assoc (a b c : string) : (a +:+ b) +:+ c = a +:+ (b +:+ c).
Proof. induction a as [|x a IH]; [reflexivity|]. now rewrite !append_cons, IH. Qed.

Lemma append_eq_nil (a b : string) : a +:+ b = "" -> a = "" /\ b = "".
Proof. destruct a; [intros H; split; [reflexivity | exact H] | rewrite append_cons; discriminate]. Qed.

Lemma Split_not_nil (s : string) (sep : ascii) : Split s sep <> [].
Proof. destruct s as [|c s]; cbn; [discriminate|]. destruct (Ascii.eqb c sep); discriminate. Qed.

Lemma IndexAny_lower (s chars : string) : (-1 <= IndexAny s chars)%Z.
Proof.
  induction s as [|c s IH]; cbn; [lia|].
  destruct (ContainsByte chars c); [lia|].
  destruct (IndexAny s chars <? 0)%Z eqn:E; lia.
Qed.

Lemma IndexAny_containsAny (s chars : string) :
  (0 <=? IndexAny s chars)%Z = containsAny s chars.
Proof.
  induction s as [|c s IH]; cbn; [reflexivity|].
  destruct (ContainsByte chars c); [reflexivity|]. cbn.
  rewrite <- IH. pose proof (IndexAny_lower s chars).
  destruct (IndexAny s chars <? 0)%Z eqn:E.
  - apply Z.ltb_lt in E. symmetry. apply Z.leb_gt. lia.
  - apply Z.ltb_ge in E. transitivity true; [apply Z.leb_le; lia | symmetry; apply Z.leb_le; lia].
Qed.

Lemma containsAny_app (a b chars : string) :
  containsAny (a +:+ b) chars = containsAny a chars || containsAny b chars.
Proof.
  induction a as [|c a IH]; [reflexivity|]. rewrite append_cons. cbn. rewrite IH. now rewrite orb_assoc.
Qed.

Lemma hasMeta_app (a b : string) : hasMeta (a +:+ b) = hasMeta a || hasMeta b.
Proof. unfold hasMeta. rewrite !IndexAny_containsAny. apply containsAny_app. Qed.

Lemma hasMeta_Join (segs : list string) :
  Forall (fun seg => hasMeta seg = false) segs -> hasMeta (Join segs "/") = false.
Proof.
  induction 1 as [|seg segs Hseg Hsegs IH]; [reflexivity|].
  destruct segs as [|seg' segs]; [exact Hseg|].
  change (Join (seg :: seg' :: segs) "/") with (seg +:+ "/" +:+ Join (seg' :: segs) "/").
  rewrite !hasMeta_app, Hseg, IH. reflexivity.
Qed.

(** ** [patternRoot] *)
Lemma literalPrefix_sound (parts : list string) :
  Forall (fun seg => hasMeta seg = false /\ In seg parts) (literalPrefix parts).
Proof.
  induction parts as [|part rest IH]; [constructor|].
  destruct rest as [|part' rest]; [constructor|].
  change (literalPrefix (part :: part' :: rest))
    with (if hasMeta part then [] else part :: literalPrefix (part' :: rest)).
  destruct (hasMeta part) eqn:E; [constructor|].
  constructor; [split; [exact E | now left]|].
  eapply Forall_impl; [exact IH|]. cbn. intros seg [? ?]. split; [assumption|now right].
Qed.

Lemma patternRootLoop_from (root : string) (parts : list string) :
  root <> "" ->
  patternRootLoop root parts = Join (root :: literalPrefix parts) "/".
Proof.
  revert root. induction parts as [|part rest IH]; intros root Hroot; [reflexivity|].
  destruct rest as [|part' rest]; [reflexivity|].
  change (patternRootLoop root (part :: part' :: rest))
    with (if hasMeta part then root
          else patternRootLoop (if String.eqb root "" then part else root +:+ "/" +:+ part)
                               (part' :: rest)).
  change (literalPrefix (part :: part' :: rest))
    with (if hasMeta part then [] else part :: literalPrefix (part' :: rest)).
  destruct (hasMeta part); [reflexivity|].
  apply String.eqb_neq in Hroot. rewrite Hroot.
  rewrite IH.
  - set (lp := literalPrefix (part' :: rest)).
    destruct lp as [|seg lp]; [reflexivity|].
    change (Join ((root +:+ "/" +:+ part) :: seg :: lp) "/")
      with ((root +:+ "/" +:+ part) +:+ "/" +:+ Join (seg :: lp) "/").
    change (Join (root :: part :: seg :: lp) "/")
      with (root +:+ "/" +:+ part +:+ "/" +:+ Join (seg :: lp) "/").
    now rewrite !append_assoc.
  - intros H. apply append_eq_nil in H as [H _]. apply String.eqb_neq in Hroot. contradiction.
Qed.

Lemma patternRootLoop_closed (parts : list string) :
  patternRootLoop "" parts = Join (dropEmpty (literalPrefix parts)) "/".
Proof.
  induction parts as [|part rest IH]; [reflexivity|].
  destruct rest as [|part' rest]; [reflexivity|].
  change (patternRootLoop "" (part :: part' :: rest))
    with (if hasMeta part then ""
          else patternRootLoop part (part' :: rest)).
  change (literalPrefix (part :: part' :: rest))
    with (if hasMeta part then [] else part :: literalPrefix (part' :: rest)).
  destruct (hasMeta part); [reflexivity|].
  destruct part as [|c part].
  - exact IH.
  - apply patternRootLoop_from. discriminate.
Qed.

Lemma dropEmpty_sub (P : string -> Prop) (l : list string) :
  Forall P l -> Forall P (dropEmpty l).
Proof. induction 1 as [|x l Hx Hl IH]; [constructor|]. destruct x; cbn; [exact IH | now constructor]. Qed.

Lemma Join_nil_inv (segs : list string) : Join segs "/" = "" -> dropEmpty segs = [].
Proof.
  destruct segs as [|seg segs]; [reflexivity|].
  destruct segs as [|seg' segs].
  - cbn. now intros ->.
  - change (Join (seg :: seg' :: segs) "/") with (seg +:+ "/" +:+ Join (seg' :: segs) "/").
    intros H. apply append_eq_nil in H as [_ H]. discriminate.
Qed.

(** The root of a pattern that is not a negation is not empty: it is
    ["./"], ["."], or segments of the pattern without metacharacter joined
    by [/]. *)
Lemma patternRoot_nonempty (s : string) (Hs : HasPrefix s "!" = false) :
  patternRoot s <> ""
  /\ (patternRoot s = "./"
      \/ patternRoot s = "."
      \/ exists segs, segs <> []
           /\ patternRoot s = Join segs "/"
           /\ Forall (fun seg => hasMeta seg = false /\ In seg (Split s "/")) segs).
Proof.
  unfold patternRoot. rewrite Hs. cbv zeta.
  destruct (length (Split s "/") =? 1)%nat; [split; [discriminate | now left]|].
  destruct (String.eqb (patternRootLoop "" (Split s "/")) "") eqn:E;
    [split; [discriminate | right; now left]|].
  apply String.eqb_neq in E. split; [exact E|]. right; right.
  exists (dropEmpty (literalPrefix (Split s "/"))). split; [|split].
  - intros H. apply E. rewrite patternRootLoop_closed, H. reflexivity.
  - apply patternRootLoop_closed.
  - apply dropEmpty_sub, literalPrefix_sound.
Qed.

(** The root has no metacharacter. *)
Lemma patternRoot_literal (s : string) :
  HasPrefix s "!" = false -> hasMeta (patternRoot s) = false.
Proof.
  intros Hs. destruct (patternRoot_nonempty s Hs) as [_ [-> | [-> | (segs & _ & -> & H)]]];
    [reflexivity | reflexivity |].
  apply hasMeta_Join. eapply Forall_impl; [exact H|]. now intros seg [? _].
Qed.

Lemma Split_hd_nil (s : string) (sep : ascii) :
  hd "" (Split s sep) = "" -> s = "" \/ HasPrefix s (String sep "") = true.
Proof.
  destruct s as [|c s]; [now left|]. cbn.
  destruct (Ascii.eqb c sep) eqn:E; [|discriminate].
  intros _. right. apply Ascii.eqb_eq in E. subst c.
  unfold HasPrefix. cbn. destruct (ascii_dec sep sep); [now destruct s | contradiction].
Qed.

(** For a pattern that is neither a negation nor begins with [/], the
    root is the one the specification describes. *)
Lemma patternRoot_relative (s : string) :
  HasPrefix s "!" = false -> HasPrefix s "/" = false -> patternRoot s = specRoot s.
Proof.
  intros Hneg Hrel. unfold patternRoot, specRoot. rewrite Hneg. cbv zeta.
  pose proof (Split_hd_nil s "/") as Hhd.
  pose proof (Split_not_nil s "/") as Hnil.
  destruct (Split s "/") as [|part rest] eqn:Hparts; [contradiction|].
  destruct rest as [|part' rest]; [reflexivity|].
  cbn [length Nat.eqb hd] in *.
  change (patternRootLoop "" (part :: part' :: rest))
    with (if hasMeta part then ""
          else patternRootLoop (if String.eqb "" "" then part else "" +:+ "/" +:+ part)
                               (part' :: rest)).
  change (literalPrefix (part :: part' :: rest))
    with (if hasMeta part then [] else part :: literalPrefix (part' :: rest)).
  destruct (hasMeta part); [reflexivity|]. cbn [String.eqb].
  assert (Hpart : part <> "").
  { intros ->. destruct Hhd as [-> | H]; [reflexivity | discriminate Hparts |].
    rewrite Hrel in H. discriminate. }
  rewrite patternRootLoop_from by exact Hpart.
  destruct (String.eqb (Join (part :: literalPrefix (part' :: rest)) "/") "") eqn:E;
    [|reflexivity].
  apply String.eqb_eq, Join_nil_inv in E.
  destruct part; [contradiction | discriminate].
Qed.

Section ResolutionFacts.

Context {FileInfo error : Type}.
Variable Walk : string -> list (string * FileInfo * option error) * option error.

Lemma MustCompile_panic (str : string) (p : panic) :
  MustCompile str = Panics p -> exists e, p = PanicCompile str e.
Proof.
  unfold MustCompile. destruct (regexp.Compile str) as [e|re]; [|discriminate].
  intros [= <-]. now exists e.
Qed.

Lemma globPattern_root_found (st : globState FileInfo) (pattern group msg : string) :
  globPattern Walk patternRoot st pattern <> Panicking (PanicMessage group msg).
Proof.
  unfold globPattern.
  destruct (HasPrefix pattern "!") eqn:Hneg.
  - destruct (Globexp (dropFirst pattern)) as [re|p] eqn:G; [discriminate|].
    apply MustCompile_panic in G as [e ->]. discriminate.
  - destruct (Globexp pattern) as [re|p] eqn:G.
    + destruct (patternRoot_nonempty pattern Hneg) as [Hroot _].
      apply String.eqb_neq in Hroot. rewrite Hroot.
      destruct (walkFiles Walk (patternRoot pattern)); discriminate.
    + apply MustCompile_panic in G as [e ->]. discriminate.
Qed.

Lemma globLoop_root_found (patterns : list string) (st : globState FileInfo)
    (group msg : string) :
  globLoop Walk patternRoot patterns st <> Panicking (PanicMessage group msg).
Proof.
  revert st. induction patterns as [|pattern patterns IH]; intros st; [discriminate|].
  cbn. pose proof (globPattern_root_found st pattern group msg) as H.
  destruct (globPattern Walk patternRoot st pattern) as [st'| |p]; [apply IH | discriminate | exact H].
Qed.

End ResolutionFacts.

(* ===================================================================== *)
(** * Root inference: the claims *)
(* ===================================================================== *)

(** C7, at the failing input.  The pattern [/usr/*.go] is not a negation,
    and its literal directory prefix is [/usr]; [patternRoot] returns
    [usr]: the empty first segment leaves [root] empty, so that the next
    segment starts the root anew and the leading separator is lost. *)
Theorem patternRoot_absolute_pattern :
  HasPrefix "/usr/*.go" "!" = false
  /\ Split "/usr/*.go" "/" = [""; "usr"; "*.go"]
  /\ specRoot "/usr/*.go" = "/usr"
  /\ patternRoot "/usr/*.go" = "usr".
Proof. repeat split; reflexivity. Qed.

(** C9.  For a pattern that does not begin with [!], [patternRoot] returns
    a string that is not empty: ["./"], ["."], or segments of the pattern
    without metacharacter joined by [/].  So whatever the walks do, [Glob]
    never panics with the message of [util.Panic]: the branch
    ["Cannot get root from pattern"] is not reached. *)
Theorem root_panic_unreachable {FileInfo error : Type}
    (Walk : string -> list (string * FileInfo * option error) * option error)
    (s : string) (patterns : list string) :
  HasPrefix s "!" = false ->
  (patternRoot s <> ""
   /\ (patternRoot s = "./"
       \/ patternRoot s = "."
       \/ exists segs, segs <> []
            /\ patternRoot s = Join segs "/"
            /\ Forall (fun seg => hasMeta seg = false /\ In seg (Split s "/")) segs))
  /\ (forall group msg, Glob Walk patterns <> Panicked (PanicMessage group msg)).
Proof.
  intros Hs. split; [exact (patternRoot_nonempty s Hs)|].
  intros group msg. unfold Glob, globWith.
  pose proof (globLoop_root_found Walk patterns (mkGlobState ∅ []) group msg) as H.
  destruct (globLoop Walk patternRoot patterns (mkGlobState ∅ [])) as [st|err|p];
    [discriminate | discriminate | congruence].
Qed.

Lemma root_panic_unreachable_witness :
  HasPrefix "a/b/*.go" "!" = false
  /\ (patternRoot "a/b/*.go" <> ""
      /\ (patternRoot "a/b/*.go" = "./"
          \/ patternRoot "a/b/*.go" = "."
          \/ exists segs, segs <> []
               /\ patternRoot "a/b/*.go" = Join segs "/"
               /\ Forall (fun seg => hasMeta seg = false
                                     /\ In seg (Split "a/b/*.go" "/")) segs))
     /\ (forall group msg,
           Glob sampleWalk ["a/b/*.go"; "!vendor/**"] <> Panicked (PanicMessage group msg)).
Proof.
  split; [reflexivity|].
  apply (root_panic_unreachable sampleWalk "a/b/*.go" ["a/b/*.go"; "!vendor/**"]).
  reflexivity.
Defined.

(* ===================================================================== *)
(** * Regular expressions *)
(* ===================================================================== *)

(** ** The matcher decides [Matches] *)

Lemma some_true {A : Type} (f : A -> bool) (l : list A) :
  regexp.some f l = true <-> exists x, In x l /\ f x = true.
Proof.
  induction l as [|a l IH]; cbn.
  - split; [discriminate | intros (x & [] & _)].
  - destruct (f a) eqn:E.
    + split; [intros _; exists a; auto | reflexivity].
    + rewrite IH. split.
      * intros (x & Hx & Hf). exists x. auto.
      * intros (x & [<- | Hx] & Hf); [congruence | exists x; auto].
Qed.

Lemma splits_In (l a b : list ascii) : In (a, b) (regexp.splits l) <-> a ++ b = l.
Proof.
  revert a b. induction l as [|c l IH]; intros a b; cbn.
  - split.
    + intros [[= <- <-] | []]. reflexivity.
    + intros H. apply app_eq_nil in H as [-> ->]. now left.
  - split.
    + intros [[= <- <-] | H]; [reflexivity|].
      apply in_map_iff in H as ([a' b'] & [= <- <-] & H).
      apply IH in H. cbn. now rewrite H.
    + destruct a as [|x a]; cbn.
      * intros ->. now left.
      * intros [= -> H]. right. apply in_map_iff. exists (a, b). split; [reflexivity|].
        now apply IH.
Qed.

Lemma some_splits (f : list ascii * list ascii -> bool) (l : list ascii) :
  regexp.some f (regexp.splits l) = true <-> exists a b, l = a ++ b /\ f (a, b) = true.
Proof.
  rewrite some_true. split.
  - intros ([a b] & Hin & Hf). apply splits_In in Hin. exists a, b. auto.
  - intros (a & b & -> & Hf). exists (a, b). split; [now apply splits_In | exact Hf].
Qed.

Lemma isNil_true (l : list ascii) : regexp.isNil l = true <-> l = [].
Proof. destruct l; cbn; split; congruence. Qed.

Lemma matchStar_Matches (sub : regexp.node) :
  (forall pre mid post, regexp.matches sub pre mid post = true <-> Matches sub pre mid post) ->
  forall rounds pre mid post, (length mid <= rounds)%nat ->
    regexp.matchStar (regexp.matches sub) rounds pre mid post = true
    <-> Matches (regexp.OpStar sub) pre mid post.
Proof.
  intros Hsub. induction rounds as [|rounds IH]; intros pre mid post Hlen.
  - destruct mid; [|cbn in Hlen; lia]. cbn. split; [constructor | reflexivity].
  - destruct mid as [|c mid]; [cbn; split; [constructor | reflexivity]|].
    cbn [regexp.matchStar]. rewrite some_splits. split.
    + intros (m1 & m2 & Heq & Hf). rewrite Heq.
      destruct m1 as [|d m1]; [discriminate|]. cbn [regexp.isNil] in Hf.
      destruct (regexp.matches sub pre (d :: m1) (m2 ++ post)) eqn:E; [|discriminate].
      apply MatchesStarCons; [discriminate | now apply Hsub |].
      apply IH; [|exact Hf].
      apply (f_equal (@length ascii)) in Heq. rewrite length_app in Heq. cbn in *. lia.
    + intros H. inversion H as [| | | | | | | |sub' pre' m1 m2 post' Hne H1 H2| | | | | |]; subst.
      exists m1, m2. split; [congruence|].
      destruct m1 as [|d m1]; [contradiction|]. cbn [regexp.isNil].
      apply Hsub in H1. rewrite H1. apply IH; [|exact H2].
      assert (Hl : length ((d :: m1) ++ m2) = length (c :: mid)) by congruence.
      rewrite length_app in Hl. cbn in *. lia.
Qed.

Theorem matches_Matches (re : regexp.node) (pre mid post : list ascii) :
  regexp.matches re pre mid post = true <-> Matches re pre mid post.
Proof.
  revert pre mid post.
  induction re as [|c|negated items| | |
                   |sub IH|sub IH|sub IH|sub IH|a IHa b IHb|a IHa b IHb];
    intros pre mid post; cbn [regexp.matches].
  - rewrite isNil_true. split; [intros ->; constructor | now inversion 1].
  - split.
    + destruct mid as [|d [|]]; try discriminate.
      intros H. apply Ascii.eqb_eq in H. subst. constructor.
    + inversion 1; subst. apply Ascii.eqb_refl.
  - split.
    + destruct mid as [|d [|]]; try discriminate. now constructor.
    + inversion 1; subst. assumption.
  - split.
    + destruct mid as [|d [|]]; try discriminate.
      intros H. constructor. intros ->. discriminate.
    + inversion 1 as [| | |d ? ? Hd| | | | | | | | | | |]; subst.
      apply Ascii.eqb_neq in Hd. now rewrite Hd.
  - split.
    + destruct mid; [|discriminate]. cbn. destruct pre; [constructor | discriminate].
    + inversion 1; subst. reflexivity.
  - split.
    + destruct mid; [|discriminate]. cbn. destruct post; [constructor | discriminate].
    + inversion 1; subst. reflexivity.
  - rewrite IH. split; [now constructor | now inversion 1].
  - apply matchStar_Matches; [exact IH | lia].
  - rewrite some_splits. split.
    + intros (m1 & m2 & -> & Hf).
      destruct (regexp.matches sub pre m1 (m2 ++ post)) eqn:E; [|discriminate].
      apply MatchesPlus; [now apply IH|].
      eapply matchStar_Matches; [exact IH | | exact Hf]. lia.
    + inversion 1 as [| | | | | | | | |sub' pre' m1 m2 post' H1 H2| | | | |]; subst.
      exists m1, m2. split; [reflexivity|].
      apply IH in H1. rewrite H1. apply matchStar_Matches; [exact IH | lia | exact H2].
  - split.
    + destruct mid as [|d mid]; cbn [regexp.isNil].
      * intros _. apply MatchesQuestNil.
      * intros H. apply MatchesQuest. now apply IH.
    + inversion 1; subst; [reflexivity|].
      destruct mid; [reflexivity|]. cbn [regexp.isNil]. now apply IH.
  - rewrite some_splits. split.
    + intros (m1 & m2 & -> & Hf).
      destruct (regexp.matches a pre m1 (m2 ++ post)) eqn:E; [|discriminate].
      apply MatchesConcat; [now apply IHa | now apply IHb].
    + inversion 1; subst. eexists _, _. split; [reflexivity|].
      match goal with
      | Ha : Matches a _ _ _, Hb : Matches b _ _ _ |- _ =>
          apply IHa in Ha; apply IHb in Hb; now rewrite Ha
      end.
  - split.
    + destruct (regexp.matches a pre mid post) eqn:E.
      * intros _. apply MatchesAlternateL. now apply IHa.
      * intros H. apply MatchesAlternateR. now apply IHb.
    + inversion 1; subst.
      * match goal with Ha : Matches a _ _ _ |- _ => apply IHa in Ha; now rewrite Ha end.
      * match goal with Hb : Matches b _ _ _ |- _ => apply IHb in Hb; rewrite Hb end.
        now destruct (regexp.matches a pre mid post).
Qed.

Lemma MatchString_Matches (re : regexp.Regexp) (s : string) :
  regexp.MatchString re s = true
  <-> exists pre mid post,
        list_ascii_of_string s = pre ++ mid ++ post
        /\ Matches (regexp.prog re) pre mid post.
Proof.
  unfold regexp.MatchString. rewrite some_splits. split.
  - intros (pre & rest & Hs & H). apply some_splits in H as (mid & post & -> & H).
    exists pre, mid, post. split; [exact Hs | now apply matches_Matches].
  - intros (pre & mid & post & Hs & H). exists pre, (mid ++ post). split; [exact Hs|].
    apply some_splits. exists mid, post. split; [reflexivity | now apply matches_Matches].
Qed.

(** ** Strings as lists of bytes *)

Lemma list_ascii_app (a b : string) :
  list_ascii_of_string (a +:+ b) = list_ascii_of_string a ++ list_ascii_of_string b.
Proof. induction a as [|c a IH]; [reflexivity|]. rewrite append_cons. cbn. now rewrite IH. Qed.

Lemma list_ascii_inj (a b : string) :
  list_ascii_of_string a = list_ascii_of_string b -> a = b.
Proof.
  intros H. rewrite <- (string_of_list_ascii_of_string a), <- (string_of_list_ascii_of_string b).
  now rewrite H.
Qed.

Lemma allBytes_Forall (f : ascii -> bool) (s : string) :
  allBytes f s = true <-> Forall (fun c => f c = true) (list_ascii_of_string s).
Proof.
  induction s as [|c s IH]; cbn; [split; [constructor | reflexivity]|].
  rewrite andb_true_iff, IH. split.
  - intros [? ?]. now constructor.
  - intros H. apply Forall_cons_1 in H. exact H.
Qed.

Lemma containsAny_slash (s : string) :
  containsAny s "/" = false
  <-> Forall (fun c => c <> "/"%char) (list_ascii_of_string s).
Proof.
  induction s as [|c s IH]; cbn; [split; [constructor | reflexivity]|].
  rewrite orb_false_r, orb_false_iff, IH, Ascii.eqb_neq. split.
  - intros [? ?]. now constructor.
  - intros H. apply Forall_cons_1 in H. exact H.
Qed.

(** ** Classes and their repetitions *)

Ltac invert H := inversion H; subst; clear H.

Ltac invert_matches :=
  repeat match goal with
    | H : Matches (regexp.OpConcat _ _) _ _ _ |- _ => invert H
    | H : Matches regexp.OpBeginText _ _ _ |- _ => invert H
    | H : Matches regexp.OpEndText _ _ _ |- _ => invert H
    | H : Matches (regexp.OpLiteral _) _ _ _ |- _ => invert H
    | H : Matches (regexp.OpCapture _) _ _ _ |- _ => invert H
    end.

Lemma Matches_star_class negated items pre mid post :
  Matches (regexp.OpStar (regexp.OpCharClass negated items)) pre mid post
  <-> Forall (fun d => regexp.inClass negated items d = true) mid.
Proof.
  split.
  - intros H. remember (regexp.OpStar (regexp.OpCharClass negated items)) as re eqn:Hre.
    induction H; try discriminate; [constructor|].
    injection Hre as ->. apply Forall_app. split; [|now apply IHMatches2].
    match goal with H : Matches (regexp.OpCharClass _ _) _ _ _ |- _ => invert H end.
    now repeat constructor.
  - intros H. revert pre. induction H as [|d mid Hd Hmid IH]; intros pre; [constructor|].
    change (d :: mid) with ([d] ++ mid).
    apply MatchesStarCons; [discriminate | now constructor | apply IH].
Qed.

Lemma Matches_plus_class negated items pre mid post :
  Matches (regexp.OpPlus (regexp.OpCharClass negated items)) pre mid post
  <-> mid <> [] /\ Forall (fun d => regexp.inClass negated items d = true) mid.
Proof.
  split.
  - intros H. invert H.
    match goal with H : Matches (regexp.OpCharClass _ _) _ _ _ |- _ => invert H end.
    split; [discriminate|]. constructor; [assumption|].
    eapply Matches_star_class; eassumption.
  - intros [Hne H]. destruct H as [|d mid Hd Hmid]; [contradiction|].
    change (d :: mid) with ([d] ++ mid).
    apply MatchesPlus; [now constructor | now apply Matches_star_class].
Qed.

Lemma notSlash_class (d : ascii) :
  regexp.inClass true [regexp.ClassItem false [("/"%char, "/"%char)]] d
  = negb (Ascii.eqb d "/").
Proof. destruct d as [[] [] [] [] [] [] [] []]; reflexivity. Qed.

Lemma segment_class (d : ascii) :
  regexp.inClass false
    [regexp.ClassItem false [("0"%char, "9"%char); ("A"%char, "Z"%char);
                             ("_"%char, "_"%char); ("a"%char, "z"%char)];
     regexp.ClassItem false [("."%char, "."%char)];
     regexp.ClassItem false [("-"%char, "-"%char)]] d
  = isSegmentByte d.
Proof. destruct d as [[] [] [] [] [] [] [] []]; reflexivity. Qed.

(** ** A bare star *)

Lemma globexpLoop_star (glob' : string) (inGroup : bool) :
  globexpLoop (String "*" glob') 0 inGroup
  = if HasPrefix glob' "*/"
    then zeroOrMoreDirectories +:+ globexpLoop glob' 2 inGroup
    else anyRune +:+ globexpLoop glob' 0 inGroup.
Proof.
  cbn [globexpLoop globexpRune].
  replace (HasPrefix (String "*" glob') "**/") with (HasPrefix glob' "*/")
    by (unfold HasPrefix; cbn; now destruct glob').
  now destruct (HasPrefix glob' "*/").
Qed.

Lemma anyRune_matches :
  exists r, regexp.Parse anyRune = inr r
    /\ forall pre mid post,
         regexp.matches r pre mid post = true <-> Forall (fun d => d <> "/"%char) mid.
Proof.
  exists (regexp.OpStar (regexp.OpCharClass true [regexp.ClassItem false [("/"%char, "/"%char)]])).
  split; [reflexivity|]. intros pre mid post.
  rewrite matches_Matches, Matches_star_class.
  apply Forall_iff. intros d. rewrite notSlash_class, negb_true_iff. apply Ascii.eqb_neq.
Qed.

Lemma star_go_matches (re : regexp.Regexp) (s : string) :
  Globexp "*.go" = Value re ->
  regexp.MatchString re s = true
  <-> exists t, s = t +:+ ".go" /\ containsAny t "/" = false.
Proof.
  intros Hre. vm_compute in Hre. injection Hre as <-.
  rewrite MatchString_Matches. cbn [regexp.prog]. split.
  - intros (pre & mid & post & Hs & H). invert_matches.
    match goal with
    | H : Matches (regexp.OpStar _) _ ?m _ |- _ =>
        apply Matches_star_class in H; exists (string_of_list_ascii m); split;
        [ apply list_ascii_inj;
          rewrite Hs, list_ascii_app, list_ascii_of_string_of_list_ascii;
          cbn; now rewrite ?app_nil_r
        | apply containsAny_slash; rewrite list_ascii_of_string_of_list_ascii;
          eapply Forall_impl; [exact H|]; intros d; cbv beta;
          rewrite notSlash_class, negb_true_iff; apply Ascii.eqb_neq ]
    end.
  - intros (t & -> & Ht). apply containsAny_slash in Ht.
    exists [], (list_ascii_of_string t ++ list_ascii_of_string ".go"), [].
    split; [now rewrite list_ascii_app, app_nil_r|].
    change (list_ascii_of_string t ++ list_ascii_of_string ".go")
      with ([] ++ list_ascii_of_string t ++ ["."%char] ++ ["g"%char] ++ ["o"%char] ++ []).
    apply MatchesConcat; [constructor|].
    apply MatchesConcat.
    + apply Matches_star_class. eapply Forall_impl; [exact Ht|]. intros d Hd. cbv beta in *.
      rewrite notSlash_class, negb_true_iff. now apply Ascii.eqb_neq.
    + repeat (apply MatchesConcat; [constructor|]). rewrite !app_nil_r. constructor.
Qed.

(** ** The double star *)

Lemma globexpLoop_leading_double_star (glob' : string) (inGroup : bool) :
  globexpLoop ("**/" +:+ glob') 0 inGroup
  = zeroOrMoreDirectories +:+ globexpLoop glob' 0 inGroup.
Proof.
  rewrite !append_cons. cbn [globexpLoop globexpRune].
  replace (HasPrefix (String "*" (String "*" (String "/" ("" +:+ glob')))) "**/") with true
    by (unfold HasPrefix; cbn; now destruct ("" +:+ glob')).
  reflexivity.
Qed.

Lemma globexpLoop_infix_double_star (glob' : string) (inGroup : bool) :
  globexpLoop ("/**/" +:+ glob') 0 inGroup
  = "/" +:+ zeroOrMoreDirectories +:+ globexpLoop glob' 0 inGroup.
Proof.
  rewrite !append_cons. cbn [globexpLoop globexpRune].
  replace (HasPrefix (String "/" (String "*" (String "*" (String "/" ("" +:+ glob'))))) "/**/")
    with true by (unfold HasPrefix; cbn; now destruct ("" +:+ glob')).
  now rewrite append_assoc.
Qed.

Lemma Matches_segment pre mid post :
  Matches (regexp.OpConcat (regexp.OpPlus segmentClass) (regexp.OpLiteral "/")) pre mid post
  <-> exists d, isSegment d /\ mid = d ++ ["/"%char].
Proof.
  unfold segmentClass, isSegment. split.
  - intros H. invert_matches.
    match goal with H : Matches (regexp.OpPlus _) _ ?d _ |- _ =>
      apply Matches_plus_class in H as [Hne Hall]; exists d end.
    split; [|reflexivity]. split; [exact Hne|].
    eapply Forall_impl; [exact Hall|]. intros c. cbv beta. now rewrite segment_class.
  - intros (d & [Hne Hall] & ->). apply MatchesConcat; [|constructor].
    apply Matches_plus_class. split; [exact Hne|].
    eapply Forall_impl; [exact Hall|]. intros c. cbv beta. now rewrite segment_class.
Qed.

Lemma Matches_star_segments pre mid post :
  Matches (regexp.OpStar (regexp.OpConcat (regexp.OpPlus segmentClass) (regexp.OpLiteral "/")))
          pre mid post
  <-> exists dirs, Forall isSegment dirs
        /\ mid = List.concat (map (fun d => d ++ ["/"%char]) dirs).
Proof.
  split.
  - intros H.
    remember (regexp.OpStar (regexp.OpConcat (regexp.OpPlus segmentClass) (regexp.OpLiteral "/")))
      as re eqn:Hre.
    induction H; try discriminate; [now exists []|].
    injection Hre as ->.
    destruct (IHMatches2 eq_refl) as (dirs & Hdirs & ->).
    match goal with H : Matches (regexp.OpConcat _ _) _ _ _ |- _ =>
      apply Matches_segment in H as (d & Hd & ->) end.
    exists (d :: dirs). split; [now constructor | reflexivity].
  - intros (dirs & Hdirs & ->). revert pre.
    induction Hdirs as [|d dirs Hd Hdirs IH]; intros pre; [constructor|].
    cbn [map List.concat]. apply MatchesStarCons.
    + now destruct d.
    + apply Matches_segment. now exists d.
    + apply IH.
Qed.

Lemma dirPrefix_list (dirs : list string) :
  list_ascii_of_string (dirPrefix dirs)
  = List.concat (map (fun d => d ++ ["/"%char]) (map list_ascii_of_string dirs)).
Proof.
  induction dirs as [|d dirs IH]; [reflexivity|].
  cbn [dirPrefix map List.concat]. rewrite !list_ascii_app, IH.
  now rewrite <- app_assoc.
Qed.

Lemma map_list_ascii_of_string (dirs : list (list ascii)) :
  map list_ascii_of_string (map string_of_list_ascii dirs) = dirs.
Proof.
  induction dirs as [|d dirs IH]; [reflexivity|].
  cbn [map]. now rewrite list_ascii_of_string_of_list_ascii, IH.
Qed.

Lemma isSegment_string (d : string) :
  isSegment (list_ascii_of_string d) <-> d <> "" /\ allBytes isSegmentByte d = true.
Proof.
  unfold isSegment. rewrite allBytes_Forall. split; intros [Hne Hall]; (split; [|exact Hall]).
  - intros ->. now apply Hne.
  - destruct d; [contradiction | discriminate].
Qed.

Lemma double_star_x_matches (re : regexp.Regexp) (s : string) :
  Globexp "**/x" = Value re ->
  regexp.MatchString re s = true
  <-> exists dirs, s = dirPrefix dirs +:+ "x"
        /\ Forall (fun d => d <> "" /\ allBytes isSegmentByte d = true) dirs.
Proof.
  intros Hre. vm_compute in Hre. injection Hre as <-.
  rewrite MatchString_Matches. cbn [regexp.prog]. split.
  - intros (pre & mid & post & Hs & H). invert_matches.
    match goal with H : Matches (regexp.OpStar _) _ _ _ |- _ =>
      apply Matches_star_segments in H as (dirs & Hdirs & ->) end.
    exists (map string_of_list_ascii dirs). split.
    + apply list_ascii_inj. rewrite Hs, list_ascii_app, dirPrefix_list, map_list_ascii_of_string. cbn. now rewrite ?app_nil_r.
    + apply Forall_map. eapply Forall_impl; [exact Hdirs|]. intros d Hd. cbv beta.
      apply isSegment_string. now rewrite list_ascii_of_string_of_list_ascii.
  - intros (dirs & -> & Hdirs).
    exists [], (list_ascii_of_string (dirPrefix dirs) ++ ["x"%char]), [].
    split; [now rewrite list_ascii_app, app_nil_r|].
    change (list_ascii_of_string (dirPrefix dirs) ++ ["x"%char])
      with ([] ++ list_ascii_of_string (dirPrefix dirs) ++ ["x"%char] ++ []).
    apply MatchesConcat; [constructor|].
    apply MatchesConcat.
    + constructor. apply Matches_star_segments.
      exists (map list_ascii_of_string dirs). split; [|apply dirPrefix_list].
      apply Forall_map. eapply Forall_impl; [exact Hdirs|]. intros d Hd. cbv beta.
      now apply isSegment_string.
    + apply MatchesConcat; [constructor|]. rewrite !app_nil_r. constructor.
Qed.

(* ===================================================================== *)
(** * The pattern compiler: the claims *)
(* ===================================================================== *)

(** The examples of section 8 of the specification. *)
Example Globexp_ex_star_star_go :
  exists re, Globexp "**/*.go" = Value re
    /\ regexp.MatchString re "main.go" = true
    /\ regexp.MatchString re "a/b/main.go" = true.
Proof. eexists. repeat split; reflexivity. Qed.

Example Globexp_ex_trailing :
  exists re, Globexp "src/**" = Value re
    /\ regexp.MatchString re "src/x" = true
    /\ regexp.MatchString re "src/a/b/x" = true
    /\ regexp.MatchString re "srcx" = false.
Proof. eexists. repeat split; reflexivity. Qed.

Example Globexp_ex_group :
  exists re, Globexp "{a,b}.txt" = Value re
    /\ regexp.MatchString re "a.txt" = true
    /\ regexp.MatchString re "b.txt" = true
    /\ regexp.MatchString re "c.txt" = false.
Proof. eexists. repeat split; reflexivity. Qed.

Example Glob_ex_negation :
  exists rs, Glob sampleWalk ["**/*.go"; "!vendor/**"]
             = Returned [mkFileAsset false "main.go" "."] rs.
Proof. eexists. reflexivity. Qed.

(** C4, at the failing input.  Wherever it stands, [?] is compiled to the
    dot, which matches every character but the newline, the separator
    included: the expression of [a?b] is [^a.b$], and it matches [a/b]. *)
Theorem question_mark_matches_separator :
  (forall glob' inGroup,
      globexpLoop (String "?" glob') 0 inGroup = "." +:+ globexpLoop glob' 0 inGroup)
  /\ (forall pre post, regexp.matches regexp.OpAnyCharNotNL pre ["/"%char] post = true)
  /\ exists re, Globexp "a?b" = Value re
       /\ regexp.expr re = "^a.b$"
       /\ regexp.MatchString re "a/b" = true.
Proof.
  split; [reflexivity|]. split; [reflexivity|].
  eexists. split; [reflexivity|]. split; reflexivity.
Qed.

(** C5.  A star that does not begin the construct made of two stars and
    a separator is compiled to [anyRune], the expression that matches
    exactly the runs of characters other than the separator.  So the
    expression of the pattern made of a star and [.go] matches the texts
    that end in [.go] and have no separator before it: it matches
    [main.go] and does not match [sub/main.go]. *)
Theorem bare_star_stays_in_segment :
  (forall glob' inGroup,
      globexpLoop (String "*" glob') 0 inGroup
      = if HasPrefix glob' "*/"
        then zeroOrMoreDirectories +:+ globexpLoop glob' 2 inGroup
        else anyRune +:+ globexpLoop glob' 0 inGroup)
  /\ (exists r, regexp.Parse anyRune = inr r
        /\ forall pre mid post,
             regexp.matches r pre mid post = true
             <-> Forall (fun d => d <> "/"%char) mid)
  /\ exists re, Globexp "*.go" = Value re
       /\ regexp.expr re = "^" +:+ anyRune +:+ "\.go$"
       /\ (forall s, regexp.MatchString re s = true
                     <-> exists t, s = t +:+ ".go" /\ containsAny t "/" = false)
       /\ regexp.MatchString re "main.go" = true
       /\ regexp.MatchString re "sub/main.go" = false.
Proof.
  split; [exact globexpLoop_star|]. split; [exact anyRune_matches|].
  destruct (Globexp "*.go") as [re|p] eqn:Hre; [|discriminate].
  exists re. split; [reflexivity|].
  split; [vm_compute in Hre; injection Hre as <-; reflexivity|].
  split; [intros s; now apply star_go_matches|].
  vm_compute in Hre. injection Hre as <-. split; reflexivity.
Qed.

(** C10.  The leading construct of two stars and a separator, and the
    same construct after a separator, are compiled to
    [zeroOrMoreDirectories], whose directory names are runs of word
    characters, dots and hyphens.  So the expression of the pattern made
    of that construct and [x] matches exactly [x] behind any number of such
    names, each followed by the separator: it matches [a.b/x], and matches
    neither [a b/x] nor [c+d/x]. *)
Theorem double_star_segment_names :
  (forall glob' inGroup,
      globexpLoop ("**/" +:+ glob') 0 inGroup
      = zeroOrMoreDirectories +:+ globexpLoop glob' 0 inGroup)
  /\ (forall glob' inGroup,
        globexpLoop ("/**/" +:+ glob') 0 inGroup
        = "/" +:+ zeroOrMoreDirectories +:+ globexpLoop glob' 0 inGroup)
  /\ exists re, Globexp "**/x" = Value re
       /\ regexp.expr re = "^" +:+ zeroOrMoreDirectories +:+ "x$"
       /\ (forall s, regexp.MatchString re s = true
                     <-> exists dirs,
                           s = dirPrefix dirs +:+ "x"
                           /\ Forall (fun d => d <> ""
                                               /\ allBytes isSegmentByte d = true) dirs)
       /\ regexp.MatchString re "a.b/x" = true
       /\ regexp.MatchString re "a b/x" = false
       /\ regexp.MatchString re "c+d/x" = false.
Proof.
  split; [exact globexpLoop_leading_double_star|].
  split; [exact globexpLoop_infix_double_star|].
  destruct (Globexp "**/x") as [re|p] eqn:Hre; [|discriminate].
  exists re. split; [reflexivity|].
  split; [vm_compute in Hre; injection Hre as <-; reflexivity|].
  split; [intros s; now apply double_star_x_matches|].
  vm_compute in Hre. injection Hre as <-. repeat split; reflexivity.
Qed.

(* ===================================================================== *)
(** * The resolution engine *)
(* ===================================================================== *)

(** ** Anchored expressions *)

Lemma endsWithEndText_post (re : regexp.node) (pre mid post : list ascii) :
  endsWithEndText re = true -> Matches re pre mid post -> post = [].
Proof.
  intros Hre H. induction H; try discriminate; [reflexivity|].
  cbn in Hre. auto.
Qed.

Lemma anchored_whole (re : regexp.node) (pre mid post : list ascii) :
  anchored re = true -> Matches re pre mid post -> pre = [] /\ post = [].
Proof.
  destruct re as [| | | | | | | | | |a b|]; try discriminate.
  destruct a; try discriminate. cbn. intros Hb H. invert H.
  match goal with H : Matches regexp.OpBeginText _ _ _ |- _ => invert H end.
  split; [reflexivity|]. eapply endsWithEndText_post; eassumption.
Qed.

Lemma anchored_FullMatch (re : regexp.Regexp) (s : string) :
  anchored (regexp.prog re) = true ->
  regexp.MatchString re s = regexp.FullMatch re s.
Proof.
  intros Ha. apply eq_true_iff_eq. rewrite MatchString_Matches.
  unfold regexp.FullMatch. rewrite matches_Matches. split.
  - intros (pre & mid & post & Hs & H).
    destruct (anchored_whole _ _ _ _ Ha H) as [-> ->].
    rewrite Hs. cbn. now rewrite app_nil_r.
  - intros H. exists [], (list_ascii_of_string s), []. split; [now rewrite app_nil_r | exact H].
Qed.

(** ** The result set *)

Section ResultSet.

Context {FileInfo error : Type}.
Variable Walk : string -> list (string * FileInfo * option error) * option error.

Implicit Types (st : globState FileInfo) (mp : gmap string (option (FileAsset FileInfo))).

Lemma removeMatches_lookup (re : regexp.Regexp) mp (p : string) :
  removeMatches re mp !! p
  = (fun it => if regexp.MatchString re p then None else it) <$> mp !! p.
Proof. unfold removeMatches. rewrite map_lookup_imap. now destruct (mp !! p). Qed.

Lemma insertMatches_cons re root (file : FileAsset FileInfo) fileAssets mp :
  insertMatches re root (file :: fileAssets) mp
  = insertMatches re root fileAssets
      (if regexp.MatchString re (Path file)
       then <[Path file := Some (mkFileAsset (Info file) (Path file) root)]> mp
       else mp).
Proof. reflexivity. Qed.

Lemma insertMatches_miss re root fileAssets mp (p : string) :
  regexp.MatchString re p = false \/ Forall (fun file => Path file <> p) fileAssets ->
  insertMatches re root fileAssets mp !! p = mp !! p.
Proof.
  revert mp. induction fileAssets as [|file fileAssets IH]; intros mp H; [reflexivity|].
  rewrite insertMatches_cons, IH.
  - destruct (regexp.MatchString re (Path file)) eqn:E; [|reflexivity].
    apply lookup_insert_ne. intros Hp. destruct H as [H | H].
    + congruence.
    + apply Forall_cons_1 in H as [H _]. contradiction.
  - destruct H as [H | H]; [now left | right]. now apply Forall_cons_1 in H.
Qed.

Lemma insertMatches_hit re root fileAssets mp (p : string) :
  regexp.MatchString re p = true ->
  Exists (fun file => Path file = p) fileAssets ->
  exists info, insertMatches re root fileAssets mp !! p = Some (Some (mkFileAsset info p root)).
Proof.
  intros Hre. revert mp. induction fileAssets as [|file fileAssets IH]; intros mp H.
  - now apply Exists_nil in H.
  - rewrite insertMatches_cons.
    destruct (decide (Exists (fun file => Path file = p) fileAssets)) as [Hin | Hout].
    + now apply IH.
    + apply Exists_cons in H as [Hp | H]; [|contradiction].
      subst p. rewrite Hre. exists (Info file).
      rewrite insertMatches_miss; [apply lookup_insert_eq|].
      right. apply Forall_forall. intros f Hf Hp. apply Hout. apply Exists_exists. eauto.
Qed.

Lemma keyed_empty : keyed (∅ : gmap string (option (FileAsset FileInfo))).
Proof. intros q a H. now rewrite lookup_empty in H. Qed.

Lemma keyed_removeMatches re mp : keyed mp -> keyed (removeMatches re mp).
Proof.
  intros Hk q a. rewrite removeMatches_lookup.
  destruct (mp !! q) as [it|] eqn:E; [|discriminate]. cbn.
  destruct (regexp.MatchString re q); [discriminate|]. intros [= ->]. now apply Hk.
Qed.

Lemma keyed_insertMatches re root fileAssets mp :
  keyed mp -> keyed (insertMatches re root fileAssets mp).
Proof.
  revert mp. induction fileAssets as [|file fileAssets IH]; intros mp Hk; [exact Hk|].
  rewrite insertMatches_cons. apply IH.
  destruct (regexp.MatchString re (Path file)); [|exact Hk].
  intros q a. rewrite lookup_insert. case_decide as Hq.
  - intros [= <-]. exact Hq.
  - apply Hk.
Qed.

Lemma collectKeys_elem mp (a : FileAsset FileInfo) :
  a ∈ collectKeys mp <-> exists q, mp !! q = Some (Some a).
Proof.
  unfold collectKeys. rewrite list_elem_of_omap. split.
  - intros ([q it] & Hin & Hit). apply elem_of_map_to_list in Hin. cbn in Hit. subst it. eauto.
  - intros (q & Hq). exists (q, Some a). split; [now apply elem_of_map_to_list | reflexivity].
Qed.

Lemma walkFiles_visits (root p : string) fileAssets :
  walkFiles Walk root = inr fileAssets ->
  visits Walk root p = true <-> Exists (fun file => Path file = p) fileAssets.
Proof.
  unfold walkFiles, visits. destruct (Walk root) as [vs err]. cbn [fst].
  destruct err; [discriminate|]. intros [= <-].
  induction vs as [|[[path info] e] vs IH]; cbn [existsb omap].
  - split; [discriminate | intros H; now apply Exists_nil in H].
  - rewrite orb_true_iff, IH, andb_true_iff, String.eqb_eq. cbn [list_omap].
    destruct e as [e|]; cbn.
    + split; [intros [[_ H] | H]; [discriminate | exact H] | intros H; now right].
    + rewrite Exists_cons. cbn. split; intros [H | H]; auto. now left.
Qed.

(** The loop over a list of patterns in two parts. *)
Lemma globLoop_app inferRoot (ps1 ps2 : list string) st :
  globLoop Walk inferRoot (ps1 ++ ps2) st
  = match globLoop Walk inferRoot ps1 st with
    | Continue st' => globLoop Walk inferRoot ps2 st'
    | stop => stop
    end.
Proof.
  revert st. induction ps1 as [|q ps1 IH]; intros st; [reflexivity|].
  cbn. destruct (globPattern Walk inferRoot st q); auto.
Qed.

Lemma globPattern_keyed inferRoot st q st' :
  globPattern Walk inferRoot st q = Continue st' -> keyed (m st) -> keyed (m st').
Proof.
  unfold globPattern. intros H Hk.
  destruct (HasPrefix q "!").
  - destruct (Globexp (dropFirst q)); [|discriminate]. injection H as <-.
    now apply keyed_removeMatches.
  - destruct (Globexp q); [|discriminate].
    destruct (String.eqb (inferRoot q) ""); [discriminate|].
    destruct (walkFiles Walk (inferRoot q)); [discriminate|]. injection H as <-.
    now apply keyed_insertMatches.
Qed.

Lemma globLoop_keyed inferRoot (ps : list string) st st' :
  globLoop Walk inferRoot ps st = Continue st' -> keyed (m st) -> keyed (m st').
Proof.
  revert st. induction ps as [|q ps IH]; intros st H Hk; [now injection H as <-|].
  cbn in H. destruct (globPattern Walk inferRoot st q) as [st1| |] eqn:E; try discriminate.
  eapply IH; [exact H|]. eapply globPattern_keyed; eassumption.
Qed.

(** What one pattern does to the entry of a path. *)
Lemma globPattern_lookup st q st' (p : string) :
  globPattern Walk patternRoot st q = Continue st' ->
  if reinserts Walk p q
  then exists info, m st' !! p = Some (Some (mkFileAsset info p (patternRoot q)))
  else if removes p q
       then m st' !! p = (fun _ => None) <$> m st !! p
       else m st' !! p = m st !! p.
Proof.
  unfold globPattern, reinserts, removes. intros H.
  destruct (HasPrefix q "!") eqn:Hneg; cbn [negb andb].
  - destruct (Globexp (dropFirst q)) as [re|]; [|discriminate]. injection H as <-.
    cbn [m]. rewrite removeMatches_lookup.
    destruct (regexp.MatchString re p); [reflexivity|]. now destruct (m st !! p).
  - destruct (Globexp q) as [re|]; [|discriminate].
    destruct (String.eqb (patternRoot q) ""); [discriminate|].
    destruct (walkFiles Walk (patternRoot q)) as [|fileAssets] eqn:Hw; [discriminate|].
    injection H as <-. cbn [m].
    pose proof (walkFiles_visits (patternRoot q) p fileAssets Hw) as Hv.
    destruct (regexp.MatchString re p) eqn:Hre; cbn [andb].
    + destruct (visits Walk (patternRoot q) p).
      * apply insertMatches_hit; [exact Hre | now apply Hv].
      * apply insertMatches_miss. right. apply Forall_forall. intros f Hf Hp.
        assert (Hex : Exists (fun file => Path file = p) fileAssets)
          by (apply Exists_exists; eauto).
        apply Hv in Hex. discriminate.
    + apply insertMatches_miss. now left.
Qed.

End ResultSet.

Section ResolutionClaims.

Context {FileInfo error : Type}.
Variable Walk : string -> list (string * FileInfo * option error) * option error.

Implicit Types (st : globState FileInfo).

Lemma globLoop_absent (ps : list string) st st' (p : string) :
  globLoop Walk patternRoot ps st = Continue st' ->
  (forall a, m st !! p <> Some (Some a)) ->
  existsb (reinserts Walk p) ps = false ->
  forall a, m st' !! p <> Some (Some a).
Proof.
  revert st. induction ps as [|q ps IH]; intros st H Hst Hps; [now injection H as <-|].
  cbn in H, Hps. apply orb_false_iff in Hps as [Hq Hps].
  destruct (globPattern Walk patternRoot st q) as [st1| |] eqn:E; try discriminate.
  apply (IH st1 H); [|exact Hps].
  pose proof (globPattern_lookup Walk st q st1 p E) as Hl. rewrite Hq in Hl.
  intros a. destruct (removes p q); rewrite Hl; [|apply Hst].
  now destruct (m st !! p).
Qed.

Lemma globLoop_kept (ps : list string) st st' (p : string) :
  globLoop Walk patternRoot ps st = Continue st' ->
  (exists a, m st !! p = Some (Some a) /\ Path a = p) ->
  existsb (removes p) ps = false ->
  exists a, m st' !! p = Some (Some a) /\ Path a = p.
Proof.
  revert st. induction ps as [|q ps IH]; intros st H Hst Hps; [now injection H as <-|].
  cbn in H, Hps. apply orb_false_iff in Hps as [Hq Hps].
  destruct (globPattern Walk patternRoot st q) as [st1| |] eqn:E; try discriminate.
  apply (IH st1 H); [|exact Hps].
  pose proof (globPattern_lookup Walk st q st1 p E) as Hl. rewrite Hq in Hl.
  destruct (reinserts Walk p q).
  - destruct Hl as [info Hl]. eexists. split; [exact Hl | reflexivity].
  - now rewrite Hl.
Qed.

Lemma globLoop_present (pre : list string) (inc : string) (post : list string)
    st st' (p : string) :
  globLoop Walk patternRoot (pre ++ inc :: post) st = Continue st' ->
  reinserts Walk p inc = true ->
  existsb (removes p) post = false ->
  exists a, m st' !! p = Some (Some a) /\ Path a = p.
Proof.
  rewrite globLoop_app. intros H Hinc Hpost.
  destruct (globLoop Walk patternRoot pre st) as [st1| |]; try discriminate.
  cbn in H. destruct (globPattern Walk patternRoot st1 inc) as [st2| |] eqn:E; try discriminate.
  apply (globLoop_kept post st2 st' p H); [|exact Hpost].
  pose proof (globPattern_lookup Walk st1 inc st2 p E) as Hl. rewrite Hinc in Hl.
  destruct Hl as [info Hl]. eexists. split; [exact Hl | reflexivity].
Qed.

Lemma globLoop_resolvable (ps : list string) st :
  resolvable Walk ps = true ->
  exists st', globLoop Walk patternRoot ps st = Continue st'.
Proof.
  revert st. induction ps as [|q ps IH]; intros st H; [now exists st|].
  cbn in H. apply andb_true_iff in H as [Hq Hps]. cbn. unfold globPattern.
  destruct (HasPrefix q "!") eqn:Hneg.
  - destruct (Globexp (dropFirst q)); [apply IH, Hps | discriminate].
  - destruct (Globexp q); [|discriminate].
    destruct (patternRoot_nonempty q Hneg) as [Hroot _].
    apply String.eqb_neq in Hroot. rewrite Hroot.
    unfold walkFiles. destruct (Walk (patternRoot q)) as [vs [e|]]; [discriminate|].
    apply IH, Hps.
Qed.

Lemma Glob_resolvable (ps : list string) :
  resolvable Walk ps = true ->
  exists st, globLoop Walk patternRoot ps (mkGlobState ∅ []) = Continue st
             /\ Glob Walk ps = Returned (collectKeys (m st)) (regexps st).
Proof.
  intros H. destruct (globLoop_resolvable ps (mkGlobState ∅ []) H) as [st Hst].
  exists st. split; [exact Hst|]. unfold Glob, globWith. now rewrite Hst.
Qed.

End ResolutionClaims.

(* ===================================================================== *)
(** * The resolution engine: the claims *)
(* ===================================================================== *)

Lemma HasPrefix_bang (q : string) : HasPrefix ("!" +:+ q) "!" = true.
Proof.
  change ("!" +:+ q) with (String "!" q). unfold HasPrefix. cbn.
  now destruct q.
Qed.

(** C1.  Let a negation pattern stand before an inclusion pattern whose
    walk reports the path [p] and whose expression matches it, and let no
    negation after that inclusion match [p].  When the patterns compile
    and the walks succeed, [Glob] returns, and [p] is among the assets it
    returns, whatever the negation matches: a negation changes the
    entries that are there when it is processed, and leaves a path that
    is not there absent, so that nothing of it is left for the insertions
    that follow. *)
Theorem negation_is_point_in_time {FileInfo error : Type}
    (Walk : string -> list (string * FileInfo * option error) * option error)
    (pre : list string) (neg : string) (mid : list string) (inc : string)
    (post : list string) (p : string) :
  resolvable Walk (pre ++ ("!" +:+ neg) :: mid ++ inc :: post) = true ->
  reinserts Walk p inc = true ->
  existsb (removes p) post = false ->
  (exists keys rs,
      Glob Walk (pre ++ ("!" +:+ neg) :: mid ++ inc :: post) = Returned keys rs
      /\ exists a, a ∈ keys /\ Path a = p)
  /\ (forall st st' q,
        globPattern Walk patternRoot st ("!" +:+ neg) = Continue st' ->
        m st !! q = None -> m st' !! q = None).
Proof.
  intros Hres Hinc Hpost. split.
  - destruct (Glob_resolvable Walk _ Hres) as (st & Hst & ->).
    eexists _, _. split; [reflexivity|].
    change (pre ++ ("!" +:+ neg) :: mid ++ inc :: post)
      with (pre ++ [("!" +:+ neg)] ++ mid ++ inc :: post) in Hst.
    rewrite !app_assoc in Hst.
    destruct (globLoop_present Walk _ inc post _ st p Hst Hinc Hpost) as (a & Ha & Hp).
    exists a. split; [|exact Hp]. apply collectKeys_elem. eauto.
  - intros st st' q. unfold globPattern. rewrite HasPrefix_bang.
    destruct (Globexp (dropFirst ("!" +:+ neg))) as [re|]; [|discriminate].
    intros [= <-] Hq. cbn [m]. now rewrite removeMatches_lookup, Hq.
Qed.

Lemma negation_is_point_in_time_witness :
  resolvable sampleWalk ([] ++ ("!" +:+ "vendor/**") :: [] ++ "vendor/keep.go" :: []) = true
  /\ reinserts sampleWalk "vendor/keep.go" "vendor/keep.go" = true
  /\ existsb (removes "vendor/keep.go") [] = false
  /\ ((exists keys rs,
          Glob sampleWalk ([] ++ ("!" +:+ "vendor/**") :: [] ++ "vendor/keep.go" :: [])
          = Returned keys rs
          /\ exists a, a ∈ keys /\ Path a = "vendor/keep.go")
      /\ (forall st st' q,
            globPattern sampleWalk patternRoot st ("!" +:+ "vendor/**") = Continue st' ->
            m st !! q = None -> m st' !! q = None)).
Proof.
  split; [vm_compute; reflexivity|].
  split; [vm_compute; reflexivity|].
  split; [reflexivity|].
  apply (negation_is_point_in_time sampleWalk [] "vendor/**" [] "vendor/keep.go" []
           "vendor/keep.go"); vm_compute; reflexivity.
Defined.

(** C2 does not hold: after [vendor/**] and its negation the entry of
    [vendor/keep.go] is the tombstone, and the inclusion pattern
    [vendor/keep.go] processed next puts the path back into the output. *)
Lemma tombstone_overwritten : ~ tombstoneIsFinal.
Proof.
  intros H.
  specialize (H bool string sampleWalk ["vendor/**"; "!vendor/**"] ["vendor/keep.go"]).
  destruct (globLoop sampleWalk patternRoot ["vendor/**"; "!vendor/**"] (mkGlobState ∅ []))
    as [st1|e|v] eqn:E1; [|vm_compute in E1; discriminate..].
  assert (Hl : m st1 !! "vendor/keep.go" = Some None).
  { assert (Hc : match globLoop sampleWalk patternRoot ["vendor/**"; "!vendor/**"]
                         (mkGlobState ∅ []) with
                 | Continue st => m st !! "vendor/keep.go"
                 | _ => None
                 end = Some None) by (vm_compute; reflexivity).
    now rewrite E1 in Hc. }
  destruct (Glob sampleWalk (["vendor/**"; "!vendor/**"] ++ ["vendor/keep.go"]))
    as [keys rs|e|v] eqn:E2; [|vm_compute in E2; discriminate..].
  specialize (H st1 "vendor/keep.go" keys rs eq_refl Hl eq_refl
                (mkFileAsset false "vendor/keep.go" "vendor")).
  apply H; [|reflexivity].
  vm_compute in E2. injection E2 as <- _. now left.
Qed.

(** C2, amended.  A path that a negation has tombstoned is not in the
    output as long as no inclusion pattern processed afterwards walks
    and matches it; an inclusion pattern that does puts it back, and it
    is in the output unless a later negation matches it again. *)
Theorem tombstone_until_reinserted {FileInfo error : Type}
    (Walk : string -> list (string * FileInfo * option error) * option error)
    (ps1 ps2 : list string) (st1 : globState FileInfo) (p : string)
    (keys : list (FileAsset FileInfo)) (rs : list RegexpInfo) :
  globLoop Walk patternRoot ps1 (mkGlobState ∅ []) = Continue st1 ->
  m st1 !! p = Some None ->
  Glob Walk (ps1 ++ ps2) = Returned keys rs ->
  (existsb (reinserts Walk p) ps2 = false -> forall a, a ∈ keys -> Path a <> p)
  /\ (forall ps2' inc post,
        ps2 = ps2' ++ inc :: post ->
        reinserts Walk p inc = true ->
        existsb (removes p) post = false ->
        exists a, a ∈ keys /\ Path a = p).
Proof.
  intros H1 Hl HG. unfold Glob, globWith in HG. rewrite globLoop_app, H1 in HG.
  destruct (globLoop Walk patternRoot ps2 st1) as [st2| |] eqn:H2; try discriminate.
  injection HG as <- <-. split.
  - intros Hps2 a Ha Hp. apply collectKeys_elem in Ha as [q Hq].
    assert (Hk : keyed (m st2)).
    { eapply globLoop_keyed; [exact H2|]. eapply globLoop_keyed; [exact H1|].
      apply keyed_empty. }
    rewrite (Hk q a Hq) in Hp. subst q.
    refine (globLoop_absent Walk ps2 st1 st2 p H2 _ Hps2 a Hq).
    intros a'. now rewrite Hl.
  - intros ps2' inc post -> Hinc Hpost.
    destruct (globLoop_present Walk ps2' inc post st1 st2 p H2 Hinc Hpost) as (a & Ha & Hp).
    exists a. split; [|exact Hp]. apply collectKeys_elem. eauto.
Qed.

Lemma tombstone_until_reinserted_witness :
  let ps1 := ["vendor/**"; "!vendor/**"] in
  let ps2 := ["vendor/keep.go"] in
  let st1 := match globLoop sampleWalk patternRoot ps1 (mkGlobState ∅ []) with
             | Continue st => st
             | _ => mkGlobState ∅ []
             end in
  let keys := match Glob sampleWalk (ps1 ++ ps2) with
              | Returned keys _ => keys
              | _ => []
              end in
  let rs := match Glob sampleWalk (ps1 ++ ps2) with
            | Returned _ rs => rs
            | _ => []
            end in
  globLoop sampleWalk patternRoot ps1 (mkGlobState ∅ []) = Continue st1
  /\ m st1 !! "vendor/keep.go" = Some None
  /\ Glob sampleWalk (ps1 ++ ps2) = Returned keys rs
  /\ ((existsb (reinserts sampleWalk "vendor/keep.go") ps2 = false ->
       forall a, a ∈ keys -> Path a <> "vendor/keep.go")
      /\ (forall ps2' inc post,
            ps2 = ps2' ++ inc :: post ->
            reinserts sampleWalk "vendor/keep.go" inc = true ->
            existsb (removes "vendor/keep.go") post = false ->
            exists a, a ∈ keys /\ Path a = "vendor/keep.go")).
Proof.
  intros ps1 ps2 st1 keys rs.
  split; [vm_compute; reflexivity|].
  split; [vm_compute; reflexivity|].
  split; [vm_compute; reflexivity|].
  apply (tombstone_until_reinserted sampleWalk ps1 ps2 st1 "vendor/keep.go" keys rs);
    vm_compute; reflexivity.
Defined.

(** C6 does not hold: the pattern [[{],o] compiles to the alternation of
    [^[(]] and [o$], which matches a part of [main.go] and not the whole of
    it; after the inclusion of the Go files at the top, its negation sets
    the entry of [main.go] to [nil]. *)
Lemma negation_removes_partial_match : ~ negationRemovesWholeMatches.
Proof.
  intros H.
  pose (st := match globLoop sampleWalk patternRoot ["*.go"] (mkGlobState ∅ []) with
              | Continue st => st
              | _ => mkGlobState ∅ []
              end).
  destruct (Globexp "[{],o") as [re|v] eqn:Hre; [|vm_compute in Hre; discriminate].
  destruct (H bool string sampleWalk st "[{],o" re Hre) as (st' & Hstep & _ & Hm).
  specialize (Hm "main.go").
  vm_compute in Hre. injection Hre as <-.
  vm_compute in Hstep. injection Hstep as <-.
  vm_compute in Hm. discriminate Hm.
Qed.

(** C6, amended.  For a pattern that starts with [!] and whose remainder
    compiles, the round of [Glob] strips the marker, records the
    expression with [Negate] set, consults no walk and no root, and sets
    to [nil] the entries of exactly the paths that [MatchString] accepts,
    leaving every other entry and every absent path as it is.
    [MatchString] looks for a match anywhere in the path; it is a match of
    the whole path when the expression is a concatenation from [^] to [$]. *)
Theorem negation_removes_matches {FileInfo error : Type}
    (Walk : string -> list (string * FileInfo * option error) * option error)
    (inferRoot : string -> string) (st : globState FileInfo)
    (pattern : string) (re : regexp.Regexp) :
  Globexp pattern = Value re ->
  globPattern Walk inferRoot st ("!" +:+ pattern)
  = Continue (mkGlobState (removeMatches re (m st)) (regexps st ++ [mkRegexpInfo re true]))
  /\ (forall p, removeMatches re (m st) !! p
                = (fun it => if regexp.MatchString re p then None else it) <$> m st !! p)
  /\ (forall Walk' inferRoot',
        globPattern Walk' inferRoot' st ("!" +:+ pattern)
        = globPattern Walk inferRoot st ("!" +:+ pattern))
  /\ (anchored (regexp.prog re) = true ->
      forall p, regexp.MatchString re p = regexp.FullMatch re p).
Proof.
  intros Hre.
  assert (Hstep : forall (Walk' : string -> list (string * FileInfo * option error)
                                          * option error) inferRoot',
             globPattern Walk' inferRoot' st ("!" +:+ pattern)
             = Continue (mkGlobState (removeMatches re (m st))
                                     (regexps st ++ [mkRegexpInfo re true]))).
  { intros Walk' inferRoot'. unfold globPattern. rewrite HasPrefix_bang.
    change (dropFirst ("!" +:+ pattern)) with pattern. now rewrite Hre. }
  split; [apply Hstep|].
  split; [intros p; apply removeMatches_lookup|].
  split; [intros Walk' inferRoot'; now rewrite !Hstep|].
  intros Ha p. now apply anchored_FullMatch.
Qed.

Lemma negation_removes_matches_witness :
  let st := match globLoop sampleWalk patternRoot ["**/*.go"] (mkGlobState ∅ []) with
            | Continue st => st
            | _ => mkGlobState ∅ []
            end in
  let re := match Globexp "vendor/**" with
            | Value re => re
            | Panics _ => regexp.mkRegexp "" regexp.OpEmptyMatch
            end in
  Globexp "vendor/**" = Value re
  /\ (globPattern sampleWalk patternRoot st ("!" +:+ "vendor/**")
      = Continue (mkGlobState (removeMatches re (m st))
                              (regexps st ++ [mkRegexpInfo re true]))
      /\ (forall p, removeMatches re (m st) !! p
                    = (fun it => if regexp.MatchString re p then None else it) <$> m st !! p)
      /\ (forall Walk' inferRoot',
            globPattern Walk' inferRoot' st ("!" +:+ "vendor/**")
            = globPattern sampleWalk patternRoot st ("!" +:+ "vendor/**"))
      /\ (anchored (regexp.prog re) = true ->
          forall p, regexp.MatchString re p = regexp.FullMatch re p)).
Proof.
  intros st re. split; [vm_compute; reflexivity|].
  apply (negation_removes_matches sampleWalk patternRoot st "vendor/**" re).
  vm_compute; reflexivity.
Defined.



(* ===================================================================== *)
(** * Compilation *)
(* ===================================================================== *)

(** ** Patterns without brackets and braces compile *)

Lemma HasPrefix_split (s prefix : string) :
  HasPrefix s prefix = true -> exists t, s = prefix +:+ t.
Proof.
  unfold HasPrefix. revert s. induction prefix as [|c prefix IH]; intros s H.
  - now exists s.
  - destruct s as [|d s]; [discriminate|]. cbn in H.
    destruct (ascii_dec c d) as [<-|]; [|discriminate].
    destruct (IH s H) as [t ->]. now exists t.
Qed.



Lemma parse_separator (tail : string) items lr :
  regexp.parseLoop ("/" +:+ tail) 0 (flat items lr)
  = regexp.parseLoop tail 0 (flat (regexp.OpLiteral "/" :: items) false).
Proof. reflexivity. Qed.

Lemma parse_directories (tail : string) items lr :
  regexp.parseLoop (zeroOrMoreDirectories +:+ tail) 0 (flat items lr)
  = regexp.parseLoop tail 0 (flat (directoriesNode :: items) false).
Proof. reflexivity. Qed.

Lemma parse_anyRune (tail : string) items lr :
  HasPrefix tail "?" = false ->
  regexp.parseLoop (anyRune +:+ tail) 0 (flat items lr)
  = regexp.parseLoop tail 0 (flat (anyRuneNode :: items) true).
Proof.
  intros H.
  change (anyRune +:+ tail)
    with (String "[" (String "^" (String "/" (String "]" (String "*" tail))))).
  cbn [regexp.parseLoop regexp.class flat]. cbn.
  rewrite H. reflexivity.
Qed.

(** What the loop writes never begins with a question mark. *)
Lemma globexpRune_head (c : ascii) (rest : string) (inGroup : bool) (tail : string) :
  HasPrefix (fst (fst (globexpRune c rest inGroup)) +:+ tail) "?" = false.
Proof.
  destruct c as [[] [] [] [] [] [] [] []]; cbn [globexpRune];
    try reflexivity;
    repeat match goal with
      | |- context [if ?b then _ else _] => destruct b
      end; reflexivity.
Qed.

Lemma globexpLoop_head (glob : string) (inGroup : bool) :
  HasPrefix (globexpLoop glob 0 inGroup +:+ "$") "?" = false.
Proof.
  destruct glob as [|c rest]; [reflexivity|]. cbn [globexpLoop].
  pose proof (globexpRune_head c (String c rest) inGroup) as H.
  destruct (globexpRune c (String c rest) inGroup) as [[out w] g]. cbn [fst] in H.
  rewrite append_assoc. apply H.
Qed.

Lemma containsAny_cons (c : ascii) (s chars : string) :
  containsAny (String c s) chars = false ->
  ContainsByte chars c = false /\ containsAny s chars = false.
Proof. cbn. apply orb_false_iff. Qed.







Example Globexp_unbalanced :
  Globexp "}" = Panics (PanicCompile "^)$" regexp.ErrUnexpectedParen)
  /\ Globexp "{" = Panics (PanicCompile "^($" regexp.ErrMissingParen)
  /\ Globexp "[" = Panics (PanicCompile "^[$" regexp.ErrMissingBracket).
Proof. repeat split; reflexivity. Qed.




(* ===================================================================== *)
(** * Root inference: further properties *)
(* ===================================================================== *)

(** ** [strings.Split] and [strings.Join] *)

Lemma Split_no_separator (s : string) (sep : ascii) :
  containsAny s (String sep "") = false -> Split s sep = [s].
Proof.
  induction s as [|c s IH]; [reflexivity|]. cbn.
  rewrite orb_false_r. intros H. apply orb_false_iff in H as [Hc Hs].
  rewrite Hc, (IH Hs). reflexivity.
Qed.

Lemma Split_separator (s : string) (sep : ascii) :
  containsAny s (String sep "") = true -> (2 <= length (Split s sep))%nat.
Proof.
  induction s as [|c s IH]; [discriminate|]. cbn.
  rewrite orb_false_r. pose proof (Split_not_nil s sep) as Hnil.
  destruct (Ascii.eqb c sep).
  - intros _. destruct (Split s sep); [contradiction | cbn; lia].
  - cbn. intros H. specialize (IH H). destruct (Split s sep) as [|x [|y l]]; cbn in *; lia.
Qed.

Lemma Join_Split (s : string) (sep : ascii) : Join (Split s sep) (String sep "") = s.
Proof.
  induction s as [|c s IH]; [reflexivity|]. cbn [Split].
  pose proof (Split_not_nil s sep) as Hnil.
  destruct (Split s sep) as [|h t]; [contradiction|].
  destruct (Ascii.eqb c sep) eqn:E.
  - apply Ascii.eqb_eq in E. subst c.
    change (Join ("" :: h :: t) (String sep ""))
      with ("" +:+ String sep "" +:+ Join (h :: t) (String sep "")).
    rewrite IH. reflexivity.
  - cbn [hd tl]. destruct t as [|h' t].
    + cbn in IH |- *. now rewrite IH.
    + change (Join (String c h :: h' :: t) (String sep ""))
        with (String c (h +:+ String sep "" +:+ Join (h' :: t) (String sep ""))).
      f_equal. exact IH.
Qed.

Lemma Join_app (l1 l2 : list string) (sep : string) :
  l1 <> [] -> l2 <> [] ->
  Join (l1 ++ l2) sep = Join l1 sep +:+ sep +:+ Join l2 sep.
Proof.
  intros H1 H2. induction l1 as [|a l1 IH]; [contradiction|].
  destruct l1 as [|b l1].
  - destruct l2; [contradiction | reflexivity].
  - change (Join ((a :: b :: l1) ++ l2) sep) with (a +:+ sep +:+ Join ((b :: l1) ++ l2) sep).
    rewrite IH by discriminate.
    change (Join (a :: b :: l1) sep) with (a +:+ sep +:+ Join (b :: l1) sep).
    now rewrite !append_assoc.
Qed.

(** The loop of [patternRoot] stops before the last segment. *)
Lemma literalPrefix_prefix (parts : list string) :
  parts <> [] -> exists rest, rest <> [] /\ parts = literalPrefix parts ++ rest.
Proof.
  induction parts as [|part rest IH]; [contradiction|]. intros _.
  destruct rest as [|part' rest]; [exists [part]; split; [discriminate | reflexivity]|].
  change (literalPrefix (part :: part' :: rest))
    with (if hasMeta part then [] else part :: literalPrefix (part' :: rest)).
  destruct (hasMeta part).
  - exists (part :: part' :: rest). split; [discriminate | reflexivity].
  - destruct IH as (r & Hr & E); [discriminate|]. exists r. split; [exact Hr|].
    cbn [app]. now rewrite <- E.
Qed.

(** X1.  [hasMeta] holds of a path exactly when one of its bytes is a
    star, a question mark, an opening bracket or an opening brace; the
    closing bracket, the closing brace and the comma are no
    metacharacters for it. *)
Theorem hasMeta_iff (path : string) :
  hasMeta path = true
  <-> exists c, In c (list_ascii_of_string path)
        /\ (c = "*"%char \/ c = "?"%char \/ c = "["%char \/ c = "{"%char).
Proof.
  unfold hasMeta. rewrite IndexAny_containsAny.
  induction path as [|d path IH]; cbn.
  - split; [discriminate | intros (c & [] & _)].
  - rewrite orb_false_r, !orb_true_iff, IH, !Ascii.eqb_eq. split.
    + intros [H | (c & Hin & Hc)];
        [exists d; split; [now left | tauto] | exists c; split; [now right | exact Hc]].
    + intros (c & [<- | Hin] & Hc); [left; tauto | right; now exists c].
Qed.

(** X2.  For a pattern that is not a negation and has no separator,
    [patternRoot] returns [./], whatever metacharacters the pattern
    has. *)
Theorem patternRoot_no_directory (s : string) :
  HasPrefix s "!" = false -> containsAny s "/" = false -> patternRoot s = "./".
Proof.
  intros Hneg Hs. unfold patternRoot. rewrite Hneg, (Split_no_separator s "/" Hs). reflexivity.
Qed.

Lemma patternRoot_no_directory_witness :
  HasPrefix "*.go" "!" = false
  /\ containsAny "*.go" "/" = false
  /\ patternRoot "*.go" = "./".
Proof.
  split; [reflexivity|]. split; [reflexivity|].
  apply (patternRoot_no_directory "*.go"); reflexivity.
Defined.

(** X3.  Whatever the pattern, the root that [patternRoot] returns has
    none of the metacharacters of [hasMeta]: the walk starts from a
    literal directory. *)
Theorem patternRoot_has_no_meta (s : string) : hasMeta (patternRoot s) = false.
Proof.
  destruct (HasPrefix s "!") eqn:Hneg; [|now apply patternRoot_literal].
  unfold patternRoot. now rewrite Hneg.
Qed.

(** X4.  For a pattern that is not a negation, does not begin with the
    separator, has a separator, and whose first segment has no
    metacharacter, the root is a leading part of the pattern, and a
    separator follows it there: the pattern is the root, a separator and
    a rest. *)
Theorem patternRoot_leads_pattern (s : string) :
  HasPrefix s "!" = false ->
  HasPrefix s "/" = false ->
  containsAny s "/" = true ->
  hasMeta (hd "" (Split s "/")) = false ->
  exists rest, s = patternRoot s +:+ "/" +:+ rest.
Proof.
  intros Hneg Hrel Hsep Hhd.
  rewrite (patternRoot_relative s Hneg Hrel). unfold specRoot.
  pose proof (Split_separator s "/" Hsep) as Hlen.
  pose proof (Join_Split s "/") as HJ.
  destruct (Split s "/") as [|part [|part' parts]] eqn:E; cbn in Hlen; try lia.
  cbn [length Nat.eqb hd] in *. rewrite Hhd.
  destruct (literalPrefix_prefix (part :: part' :: parts)) as (rest & Hrest & Hsplit);
    [discriminate|].
  exists (Join rest "/"). rewrite <- HJ at 1. rewrite Hsplit at 1.
  apply Join_app; [|exact Hrest].
  change (literalPrefix (part :: part' :: parts))
    with (if hasMeta part then [] else part :: literalPrefix (part' :: parts)).
  rewrite Hhd. discriminate.
Qed.

Lemma patternRoot_leads_pattern_witness :
  HasPrefix "a/b/*.go" "!" = false
  /\ HasPrefix "a/b/*.go" "/" = false
  /\ containsAny "a/b/*.go" "/" = true
  /\ hasMeta (hd "" (Split "a/b/*.go" "/")) = false
  /\ exists rest, "a/b/*.go" = patternRoot "a/b/*.go" +:+ "/" +:+ rest.
Proof.
  split; [reflexivity|]. split; [reflexivity|]. split; [reflexivity|]. split; [reflexivity|].
  apply (patternRoot_leads_pattern "a/b/*.go"); reflexivity.
Defined.

(* ===================================================================== *)
(** * The pattern compiler: further properties *)
(* ===================================================================== *)

(** ** Sequences of operands *)

Lemma append_nil_r (a : string) : a +:+ "" = a.
Proof. induction a as [|c a IH]; [reflexivity|]. now rewrite append_cons, IH. Qed.

Lemma concat_snoc (items : list regexp.node) (x : regexp.node) :
  items <> [] -> regexp.concat (items ++ [x]) = regexp.OpConcat x (regexp.concat items).
Proof.
  destruct items as [|y items]; [contradiction|]. intros _.
  unfold regexp.concat. cbn [app]. now rewrite fold_left_app.
Qed.

Lemma concat_rev (nodes : list regexp.node) :
  regexp.concat (rev nodes) = sequence nodes.
Proof.
  induction nodes as [|x nodes IH]; [reflexivity|].
  destruct nodes as [|y nodes]; [reflexivity|].
  change (rev (x :: y :: nodes)) with (rev (y :: nodes) ++ [x]).
  rewrite concat_snoc, IH; [reflexivity|].
  cbn. intros H. now apply app_eq_nil in H as [_ H].
Qed.

Lemma Matches_sequence_cons (x : regexp.node) (rest : list regexp.node) pre mid post :
  Matches (sequence (x :: rest)) pre mid post
  <-> exists m1 m2, mid = m1 ++ m2
        /\ Matches x pre m1 (m2 ++ post)
        /\ Matches (sequence rest) (pre ++ m1) m2 post.
Proof.
  destruct rest as [|y rest].
  - cbn [sequence]. split.
    + intros H. exists mid, []. rewrite app_nil_r. cbn. repeat split; [exact H | constructor].
    + intros (m1 & m2 & -> & H1 & H2). invert H2. cbn in H1. now rewrite app_nil_r.
  - change (sequence (x :: y :: rest)) with (regexp.OpConcat x (sequence (y :: rest))). split.
    + intros H. invert H. eauto.
    + intros (m1 & m2 & -> & H1 & H2). now constructor.
Qed.

Lemma Matches_literals (l : list ascii) (rest : list regexp.node) pre mid post :
  Matches (sequence (map regexp.OpLiteral l ++ rest)) pre mid post
  <-> exists m2, mid = l ++ m2 /\ Matches (sequence rest) (pre ++ l) m2 post.
Proof.
  revert pre mid. induction l as [|c l IH]; intros pre mid.
  - cbn [map app]. rewrite app_nil_r. split; [intros H; now exists mid | now intros (m2 & -> & H)].
  - cbn [map app]. rewrite Matches_sequence_cons. split.
    + intros (m1 & m2 & -> & H1 & H2). invert H1. apply IH in H2 as (m3 & -> & H3).
      exists m3. split; [reflexivity|]. now rewrite <- app_assoc in H3.
    + intros (m2 & -> & H). exists [c], (l ++ m2). split; [reflexivity|]. split; [constructor|].
      apply IH. exists m2. split; [reflexivity|]. now rewrite <- app_assoc.
Qed.

Lemma Matches_anchored_sequence (nodes : list regexp.node) pre mid post :
  Matches (sequence (regexp.OpBeginText :: nodes ++ [regexp.OpEndText])) pre mid post
  <-> pre = [] /\ Matches (sequence (nodes ++ [regexp.OpEndText])) [] mid post.
Proof.
  rewrite Matches_sequence_cons. split.
  - intros (m1 & m2 & -> & H1 & H2). invert H1. now split.
  - intros [-> H]. exists [], mid. split; [reflexivity|]. split; [constructor | exact H].
Qed.

Lemma Matches_sequence_end (nodes : list regexp.node) pre mid post :
  Matches (sequence (nodes ++ [regexp.OpEndText])) pre mid post -> post = [].
Proof.
  revert pre mid. induction nodes as [|x nodes IH]; intros pre mid H.
  - cbn in H. now invert H.
  - cbn [app] in H. apply Matches_sequence_cons in H as (m1 & m2 & -> & _ & H2).
    now apply IH in H2.
Qed.

Lemma MatchString_anchored (re : regexp.Regexp) (nodes : list regexp.node) (s : string) :
  regexp.prog re
  = regexp.concat (regexp.OpEndText :: rev nodes ++ [regexp.OpBeginText]) ->
  regexp.MatchString re s = true
  <-> Matches (sequence (nodes ++ [regexp.OpEndText])) [] (list_ascii_of_string s) [].
Proof.
  intros Hprog.
  assert (Hseq : regexp.prog re
                 = sequence (regexp.OpBeginText :: nodes ++ [regexp.OpEndText])).
  { rewrite Hprog, <- concat_rev. cbn [rev]. now rewrite rev_app_distr. }
  rewrite MatchString_Matches, Hseq. split.
  - intros (pre & mid & post & Hs & H).
    pose proof H as H'. apply Matches_anchored_sequence in H' as [-> H'].
    pose proof (Matches_sequence_end _ _ _ _ H') as ->.
    cbn in Hs. rewrite app_nil_r in Hs. now rewrite Hs.
  - intros H. exists [], (list_ascii_of_string s), []. split; [now rewrite app_nil_r|].
    apply Matches_anchored_sequence. now split.
Qed.

(** ** The parser on literal text *)

(** The bytes that [globexpLoop] copies or escapes: all but the
    separator, the wildcards, the brackets and the braces, and inside
    braces the comma. *)
Lemma globexpRune_literal (c : ascii) (rest : string) (inGroup : bool) :
  ContainsByte (if inGroup then "/*?[]{}," else "/*?[]{}") c = false ->
  globexpRune c rest inGroup = (fst (fst (globexpRune c "" false)), 1%nat, inGroup).
Proof.
  destruct inGroup; destruct c as [[] [] [] [] [] [] [] []]; intros H;
    (discriminate H || reflexivity).
Qed.

Lemma parse_literal (c : ascii) (tail : string) stk alts items lr :
  ContainsByte "/*?[]{}" c = false ->
  regexp.parseLoop (fst (fst (globexpRune c "" false)) +:+ tail) 0
    (regexp.Parser stk (regexp.Frame alts items) lr None)
  = regexp.parseLoop tail 0
      (regexp.Parser stk (regexp.Frame alts (regexp.OpLiteral c :: items)) false None).
Proof. destruct c as [[] [] [] [] [] [] [] []]; intros H; (discriminate H || reflexivity). Qed.

Lemma globexpRune_separator (rest : string) (inGroup : bool) :
  HasPrefix rest "**" = false ->
  globexpRune "/" (String "/" rest) inGroup = ("/", 1%nat, inGroup).
Proof.
  intros H. cbn [globexpRune].
  assert (H4 : HasPrefix (String "/" rest) "/**/" = false).
  { destruct (HasPrefix (String "/" rest) "/**/") eqn:E; [|reflexivity].
    apply HasPrefix_split in E as [t E]. injection E as ->. discriminate H. }
  assert (H3 : String.eqb (String "/" rest) "/**" = false).
  { apply String.eqb_neq. intros E. injection E as ->. discriminate H. }
  now rewrite H4, H3.
Qed.

Lemma ContainsByte_weaken (c : ascii) (inGroup : bool) :
  ContainsByte (if inGroup then "*?[]{}," else "*?[]{}") c = false ->
  ContainsByte "*?[]{}" c = false.
Proof.
  destruct inGroup; [|trivial]. cbn. rewrite !orb_false_r.
  intros H. repeat (apply orb_false_iff in H as [? H]; try rewrite H); cbn.
  repeat match goal with E : _ = false |- _ => rewrite E; clear E end. reflexivity.
Qed.

Lemma HasPrefix_star (c : ascii) (s p : string) :
  ContainsByte "*?[]{}" c = false -> HasPrefix (String c s) (String "*" p) = false.
Proof.
  intros Hc. destruct (HasPrefix (String c s) (String "*" p)) eqn:E; [|reflexivity].
  apply HasPrefix_split in E as [t E]. rewrite append_cons in E. injection E as -> _.
  discriminate Hc.
Qed.

Lemma HasPrefix_literal (d g : string) (inGroup : bool) :
  containsAny d (if inGroup then "*?[]{}," else "*?[]{}") = false ->
  HasPrefix g "**" = false ->
  HasPrefix (d +:+ g) "**" = false.
Proof.
  destruct d as [|c d]; [trivial|]. intros Hd _. rewrite append_cons.
  apply containsAny_cons in Hd as [Hc _]. apply ContainsByte_weaken in Hc.
  now apply HasPrefix_star.
Qed.

(** The parser reads what the loop writes for text without wildcard,
    bracket or brace, and inside braces without comma, as the literals of
    that text, whatever follows unless it is a double star. *)
Lemma parse_literal_run (d g tail : string) (inGroup : bool) stk alts items lr :
  containsAny d (if inGroup then "*?[]{}," else "*?[]{}") = false ->
  HasPrefix g "**" = false ->
  regexp.parseLoop (globexpLoop (d +:+ g) 0 inGroup +:+ tail) 0
    (regexp.Parser stk (regexp.Frame alts items) lr None)
  = regexp.parseLoop (globexpLoop g 0 inGroup +:+ tail) 0
      (regexp.Parser stk (regexp.Frame alts (rev (literals d) ++ items))
         (match d with "" => lr | _ => false end) None).
Proof.
  revert items lr. induction d as [|c d IH]; intros items lr Hd Hg; [reflexivity|].
  rewrite append_cons. cbn [globexpLoop].
  destruct (containsAny_cons _ _ _ Hd) as [Hc Hd'].
  assert (Hrune : globexpRune c (String c (d +:+ g)) inGroup
                  = (fst (fst (globexpRune c "" false)), 1%nat, inGroup)).
  { destruct (Ascii.eqb c "/") eqn:Hslash.
    - apply Ascii.eqb_eq in Hslash. subst c.
      apply globexpRune_separator. now apply (HasPrefix_literal d g inGroup).
    - apply globexpRune_literal. destruct inGroup; cbn in Hc |- *; now rewrite Hslash. }
  assert (Hparse : forall tl it l,
             regexp.parseLoop (fst (fst (globexpRune c "" false)) +:+ tl) 0
               (regexp.Parser stk (regexp.Frame alts it) l None)
             = regexp.parseLoop tl 0
                 (regexp.Parser stk (regexp.Frame alts (regexp.OpLiteral c :: it)) false None)).
  { destruct (Ascii.eqb c "/") eqn:Hslash.
    - apply Ascii.eqb_eq in Hslash. subst c. reflexivity.
    - intros. apply parse_literal. apply ContainsByte_weaken in Hc.
      cbn in Hc |- *. now rewrite Hslash. }
  rewrite Hrune. cbn [Nat.sub]. rewrite append_assoc, Hparse.
  rewrite (IH _ false Hd' Hg).
  unfold literals. cbn [list_ascii_of_string map rev]. rewrite <- app_assoc. cbn [app].
  now destruct d.
Qed.

Lemma parse_literal_prefix (d g tail : string) items lr :
  containsAny d "*?[]{}" = false ->
  HasPrefix g "**" = false ->
  regexp.parseLoop (globexpLoop (d +:+ g) 0 false +:+ tail) 0 (flat items lr)
  = regexp.parseLoop (globexpLoop g 0 false +:+ tail) 0
      (flat (rev (literals d) ++ items) (match d with "" => lr | _ => false end)).
Proof. apply (parse_literal_run d g tail false). Qed.

Lemma parse_end items lr :
  regexp.parseLoop "$" 0 (flat items lr) = inr (regexp.concat (regexp.OpEndText :: items)).
Proof. reflexivity. Qed.

Lemma Globexp_prog (glob : string) (nodes : list regexp.node) :
  regexp.parseLoop (globexpLoop glob 0 false +:+ "$") 0 (flat [regexp.OpBeginText] false)
  = inr (regexp.concat (regexp.OpEndText :: rev nodes ++ [regexp.OpBeginText])) ->
  exists re, Globexp glob = Value re
    /\ forall s, regexp.MatchString re s = true
         <-> Matches (sequence (nodes ++ [regexp.OpEndText])) [] (list_ascii_of_string s) [].
Proof.
  intros Hparse.
  unfold Globexp, MustCompile, regexp.Compile, regexp.Parse, globexpSource.
  change (regexp.parseLoop ("^" +:+ globexpLoop glob 0 false +:+ "$") 0
            (regexp.Parser [] regexp.emptyFrame false None))
    with (regexp.parseLoop (globexpLoop glob 0 false +:+ "$") 0
            (flat [regexp.OpBeginText] false)).
  rewrite Hparse. eexists. split; [reflexivity|].
  intros s. now apply MatchString_anchored.
Qed.

(** X5.  A pattern of ASCII text without star, question mark, bracket
    and brace compiles, and its expression matches one text only: the
    pattern itself.  So the characters that [Globexp] escapes, the
    separator, and the comma outside braces all stand for themselves. *)
Theorem Globexp_literal (glob : string) :
  isASCII glob = true ->
  containsAny glob "*?[]{}" = false ->
  exists re, Globexp glob = Value re
    /\ forall s, regexp.MatchString re s = true <-> s = glob.
Proof.
  intros _ Hglob.
  destruct (Globexp_prog glob (literals glob)) as (re & Hre & Hmatch).
  - rewrite <- (append_nil_r glob) at 1.
    rewrite (parse_literal_prefix glob "" "$" _ false Hglob eq_refl).
    change (globexpLoop "" 0 false +:+ "$") with "$". now rewrite parse_end.
  - exists re. split; [exact Hre|]. intros s. rewrite Hmatch. unfold literals.
    rewrite Matches_literals. split.
    + intros (m2 & Hs & H). cbn in H. invert H. rewrite app_nil_r in Hs.
      now apply list_ascii_inj.
    + intros ->. exists []. split; [now rewrite app_nil_r | constructor].
Qed.

Lemma Globexp_literal_witness :
  isASCII "a+b,c/Makefile.in" = true
  /\ containsAny "a+b,c/Makefile.in" "*?[]{}" = false
  /\ exists re, Globexp "a+b,c/Makefile.in" = Value re
       /\ forall s, regexp.MatchString re s = true <-> s = "a+b,c/Makefile.in".
Proof.
  split; [reflexivity|]. split; [reflexivity|].
  apply (Globexp_literal "a+b,c/Makefile.in"); reflexivity.
Defined.


Lemma Matches_star_any pre mid post :
  Matches (regexp.OpStar regexp.OpAnyCharNotNL) pre mid post
  <-> Forall (fun d => d <> "010"%char) mid.
Proof.
  split.
  - intros H. remember (regexp.OpStar regexp.OpAnyCharNotNL) as r eqn:Hr.
    induction H; try discriminate; [constructor|].
    injection Hr as ->. invert H0. constructor; [assumption | now apply IHMatches2].
  - intros H. revert pre. induction H as [|d mid Hd _ IH]; intros pre; [constructor|].
    change (d :: mid) with ([d] ++ mid). constructor; [discriminate | now constructor | apply IH].
Qed.

Lemma containsAny_newline (s : string) :
  containsAny s (String "010" "") = false
  <-> Forall (fun c => c <> "010"%char) (list_ascii_of_string s).
Proof.
  induction s as [|c s IH]; cbn.
  - split; [constructor | reflexivity].
  - rewrite orb_false_r, orb_false_iff, IH, Forall_cons_iff, Ascii.eqb_neq. reflexivity.
Qed.

(** X6.  For a directory [dir] of ASCII text without star, question
    mark, bracket and brace, the pattern made of [dir], a separator and a
    double star compiles, and its expression matches exactly the texts
    made of [dir], a separator and any text without newline, separators
    included: everything below the directory at any depth, and not the
    directory itself. *)
Theorem Globexp_trailing_double_star (dir : string) :
  isASCII dir = true ->
  containsAny dir "*?[]{}" = false ->
  exists re, Globexp (dir +:+ "/**") = Value re
    /\ forall s, regexp.MatchString re s = true
         <-> exists t, s = dir +:+ "/" +:+ t /\ containsAny t (String "010" "") = false.
Proof.
  intros _ Hdir.
  destruct (Globexp_prog (dir +:+ "/**")
              (literals dir ++ [regexp.OpLiteral "/"; regexp.OpStar regexp.OpAnyCharNotNL]))
    as (re & Hre & Hmatch).
  - rewrite (parse_literal_prefix dir "/**" "$" _ false Hdir eq_refl).
    rewrite rev_app_distr, <- app_assoc. reflexivity.
  - exists re. split; [exact Hre|]. intros s. rewrite Hmatch. unfold literals.
    rewrite <- app_assoc, Matches_literals. cbn [app]. split.
    + intros (m2 & Hs & H).
      apply Matches_sequence_cons in H as (m1 & m3 & -> & H1 & H2). invert H1.
      apply Matches_sequence_cons in H2 as (m1 & m4 & -> & H1 & H2).
      cbn [sequence] in H2. invert H2. apply Matches_star_any in H1.
      exists (string_of_list_ascii m1). split.
      * apply list_ascii_inj. rewrite Hs, !list_ascii_app, list_ascii_of_string_of_list_ascii.
        cbn. now rewrite app_nil_r.
      * apply containsAny_newline. now rewrite list_ascii_of_string_of_list_ascii.
    + intros (t & -> & Ht). exists ("/"%char :: list_ascii_of_string t).
      split; [now rewrite !list_ascii_app|].
      apply Matches_sequence_cons. exists ["/"%char], (list_ascii_of_string t).
      split; [reflexivity|]. split; [constructor|].
      apply Matches_sequence_cons. exists (list_ascii_of_string t), [].
      split; [now rewrite app_nil_r|]. split; [|constructor].
      apply Matches_star_any. now apply containsAny_newline.
Qed.

Lemma Globexp_trailing_double_star_witness :
  isASCII "vendor" = true
  /\ containsAny "vendor" "*?[]{}" = false
  /\ exists re, Globexp ("vendor" +:+ "/**") = Value re
       /\ forall s, regexp.MatchString re s = true
            <-> exists t, s = "vendor" +:+ "/" +:+ t
                  /\ containsAny t (String "010" "") = false.
Proof.
  split; [reflexivity|]. split; [reflexivity|].
  apply (Globexp_trailing_double_star "vendor"); reflexivity.
Defined.


(** X7.  For ASCII texts [a] and [b] without star, question mark,
    bracket and brace, the pattern made of [a], one star and [b]
    compiles, and its expression matches exactly the texts made of [a],
    any text without separator, empty or not, and [b]. *)
Theorem Globexp_star (a b : string) :
  isASCII a = true -> isASCII b = true ->
  containsAny a "*?[]{}" = false ->
  containsAny b "*?[]{}" = false ->
  exists re, Globexp (a +:+ "*" +:+ b) = Value re
    /\ forall s, regexp.MatchString re s = true
         <-> exists t, s = a +:+ t +:+ b /\ containsAny t "/" = false.
Proof.
  intros _ _ Ha Hb.
  assert (Hb2 : HasPrefix b "*/" = false).
  { destruct b as [|c b]; [reflexivity|]. apply containsAny_cons in Hb as [Hc _].
    now apply HasPrefix_star. }
  assert (Hg : HasPrefix ("*" +:+ b) "**" = false).
  { destruct b as [|c b]; [reflexivity|]. apply containsAny_cons in Hb as [Hc _].
    change (HasPrefix ("*" +:+ String c b) "**") with (HasPrefix (String c b) "*").
    now apply HasPrefix_star. }
  destruct (Globexp_prog (a +:+ "*" +:+ b) (literals a ++ [anyRuneNode] ++ literals b))
    as (re & Hre & Hmatch).
  - rewrite (parse_literal_prefix a ("*" +:+ b) "$" _ false Ha Hg).
    change ("*" +:+ b) with (String "*" b). rewrite globexpLoop_star, Hb2.
    rewrite append_assoc, parse_anyRune by apply globexpLoop_head.
    rewrite <- (append_nil_r b) at 1.
    rewrite (parse_literal_prefix b "" "$" _ _ Hb eq_refl).
    change (globexpLoop "" 0 false +:+ "$") with "$". rewrite parse_end.
    rewrite !rev_app_distr, <- !app_assoc. reflexivity.
  - exists re. split; [exact Hre|]. intros s. rewrite Hmatch. unfold literals.
    rewrite <- app_assoc, Matches_literals. cbn [app]. split.
    + intros (m2 & Hs & H).
      apply Matches_sequence_cons in H as (m1 & m3 & -> & H1 & H2).
      apply Matches_star_class in H1.
      apply Matches_literals in H2 as (m4 & -> & H2). cbn in H2. invert H2.
      exists (string_of_list_ascii m1). split.
      * apply list_ascii_inj. rewrite Hs, !list_ascii_app, list_ascii_of_string_of_list_ascii.
        now rewrite app_nil_r.
      * apply containsAny_slash. rewrite list_ascii_of_string_of_list_ascii.
        eapply Forall_impl; [exact H1|]. intros d Hd. cbv beta in Hd. rewrite notSlash_class in Hd.
        apply negb_true_iff, Ascii.eqb_neq in Hd. exact Hd.
    + intros (t & -> & Ht). exists (list_ascii_of_string (t +:+ b)).
      split; [now rewrite !list_ascii_app|].
      apply Matches_sequence_cons.
      exists (list_ascii_of_string t), (list_ascii_of_string b).
      split; [now rewrite list_ascii_app|]. split.
      * apply Matches_star_class. apply containsAny_slash in Ht.
        eapply Forall_impl; [exact Ht|]. intros d Hd. cbv beta. rewrite notSlash_class.
        now apply negb_true_iff, Ascii.eqb_neq.
      * apply Matches_literals. exists []. split; [now rewrite app_nil_r | constructor].
Qed.

Lemma Globexp_star_witness :
  isASCII "src/main_" = true
  /\ isASCII ".go" = true
  /\ containsAny "src/main_" "*?[]{}" = false
  /\ containsAny ".go" "*?[]{}" = false
  /\ exists re, Globexp ("src/main_" +:+ "*" +:+ ".go") = Value re
       /\ forall s, regexp.MatchString re s = true
            <-> exists t, s = "src/main_" +:+ t +:+ ".go" /\ containsAny t "/" = false.
Proof.
  split; [reflexivity|]. split; [reflexivity|]. split; [reflexivity|]. split; [reflexivity|].
  apply (Globexp_star "src/main_" ".go"); reflexivity.
Defined.

(** X8.  For ASCII texts [a] and [b] without star, question mark,
    bracket and brace, the pattern made of [a], a double star between two
    separators, and [b] compiles, and its expression matches exactly the
    texts made of [a], a separator, zero or more directory names, each
    followed by a separator, and [b], where a directory name is a
    non-empty text of letters, digits, underscores, dots and hyphens. *)
Theorem Globexp_infix_double_star (a b : string) :
  isASCII a = true -> isASCII b = true ->
  containsAny a "*?[]{}" = false ->
  containsAny b "*?[]{}" = false ->
  exists re, Globexp (a +:+ "/**/" +:+ b) = Value re
    /\ forall s, regexp.MatchString re s = true
         <-> exists dirs, s = a +:+ "/" +:+ dirPrefix dirs +:+ b
               /\ Forall (fun d => d <> "" /\ allBytes isSegmentByte d = true) dirs.
Proof.
  intros _ _ Ha Hb.
  destruct (Globexp_prog (a +:+ "/**/" +:+ b)
              (literals a ++ [regexp.OpLiteral "/"; directoriesNode] ++ literals b))
    as (re & Hre & Hmatch).
  - rewrite (parse_literal_prefix a ("/**/" +:+ b) "$" _ false Ha eq_refl).
    rewrite globexpLoop_infix_double_star, !append_assoc, parse_separator, parse_directories.
    rewrite <- (append_nil_r b) at 1.
    rewrite (parse_literal_prefix b "" "$" _ _ Hb eq_refl).
    change (globexpLoop "" 0 false +:+ "$") with "$". rewrite parse_end.
    rewrite !rev_app_distr, <- !app_assoc. reflexivity.
  - exists re. split; [exact Hre|]. intros s. rewrite Hmatch. unfold literals.
    rewrite <- app_assoc, Matches_literals. cbn [app]. split.
    + intros (m2 & Hs & H).
      apply Matches_sequence_cons in H as (m1 & m3 & -> & H1 & H2). invert H1.
      apply Matches_sequence_cons in H2 as (m1 & m4 & -> & H1 & H2).
      unfold directoriesNode in H1. invert H1.
      match goal with H : Matches (regexp.OpStar _) _ _ _ |- _ =>
        apply Matches_star_segments in H as (dirs & Hdirs & ->) end.
      apply Matches_literals in H2 as (m5 & -> & H2). cbn in H2. invert H2.
      exists (map string_of_list_ascii dirs). split.
      * apply list_ascii_inj.
        rewrite Hs, !list_ascii_app, dirPrefix_list, map_list_ascii_of_string.
        cbn. now rewrite ?app_nil_r.
      * apply Forall_map. eapply Forall_impl; [exact Hdirs|]. intros d Hd. cbv beta.
        apply isSegment_string. now rewrite list_ascii_of_string_of_list_ascii.
    + intros (dirs & -> & Hdirs).
      exists (list_ascii_of_string ("/" +:+ dirPrefix dirs +:+ b)).
      split; [now rewrite !list_ascii_app|].
      apply Matches_sequence_cons.
      exists ["/"%char], (list_ascii_of_string (dirPrefix dirs +:+ b)).
      split; [reflexivity|]. split; [constructor|].
      apply Matches_sequence_cons.
      exists (list_ascii_of_string (dirPrefix dirs)), (list_ascii_of_string b).
      split; [now rewrite list_ascii_app|]. split.
      * unfold directoriesNode. constructor. apply Matches_star_segments.
        exists (map list_ascii_of_string dirs). split; [|apply dirPrefix_list].
        apply Forall_map. eapply Forall_impl; [exact Hdirs|]. intros d Hd. cbv beta.
        now apply isSegment_string.
      * apply Matches_literals. exists []. split; [now rewrite app_nil_r | constructor].
Qed.

Lemma Globexp_infix_double_star_witness :
  isASCII "src" = true
  /\ isASCII "main.go" = true
  /\ containsAny "src" "*?[]{}" = false
  /\ containsAny "main.go" "*?[]{}" = false
  /\ exists re, Globexp ("src" +:+ "/**/" +:+ "main.go") = Value re
       /\ forall s, regexp.MatchString re s = true
            <-> exists dirs, s = "src" +:+ "/" +:+ dirPrefix dirs +:+ "main.go"
                  /\ Forall (fun d => d <> "" /\ allBytes isSegmentByte d = true) dirs.
Proof.
  split; [reflexivity|]. split; [reflexivity|]. split; [reflexivity|]. split; [reflexivity|].
  apply (Globexp_infix_double_star "src" "main.go"); reflexivity.
Defined.

(** ** Braces *)

Lemma globexpLoop_open (glob' : string) (inGroup : bool) :
  globexpLoop (String "{" glob') 0 inGroup = "(" +:+ globexpLoop glob' 0 true.
Proof. reflexivity. Qed.

Lemma globexpLoop_close (glob' : string) (inGroup : bool) :
  globexpLoop (String "}" glob') 0 inGroup = ")" +:+ globexpLoop glob' 0 false.
Proof. reflexivity. Qed.

Lemma globexpLoop_comma (glob' : string) :
  globexpLoop (String "," glob') 0 true = "|" +:+ globexpLoop glob' 0 true.
Proof. reflexivity. Qed.

Lemma parse_open (tail : string) items lr :
  HasPrefix tail "?" = false ->
  regexp.parseLoop ("(" +:+ tail) 0 (flat items lr)
  = regexp.parseLoop tail 0
      (regexp.Parser [(regexp.Frame [] items, true)] regexp.emptyFrame false None).
Proof.
  intros H. change ("(" +:+ tail) with (String "(" tail).
  cbn [regexp.parseLoop regexp.class flat regexp.token]. rewrite H. reflexivity.
Qed.

Lemma parse_bar (tail : string) stk alts items lr :
  regexp.parseLoop ("|" +:+ tail) 0 (regexp.Parser stk (regexp.Frame alts items) lr None)
  = regexp.parseLoop tail 0
      (regexp.Parser stk (regexp.Frame (regexp.concat items :: alts) []) false None).
Proof. reflexivity. Qed.

Lemma parse_close (tail : string) parent stk alts items lr :
  regexp.parseLoop (")" +:+ tail) 0
    (regexp.Parser ((parent, true) :: stk) (regexp.Frame alts items) lr None)
  = regexp.parseLoop tail 0
      (regexp.Parser stk
         (regexp.pushNode (regexp.OpCapture (regexp.alternate (regexp.Frame alts items))) parent)
         false None).
Proof. reflexivity. Qed.

(** The parser reads the alternatives between braces, up to the closing
    brace, as one capturing group. *)
Lemma parse_alternatives (choices : list string) :
  forall (a y tail : string) parent stk alts lr,
    Forall (fun c => containsAny c "*?[]{}," = false) (a :: choices) ->
    regexp.parseLoop
      (globexpLoop (Join (a :: choices) "," +:+ "}" +:+ y) 0 true +:+ tail) 0
      (regexp.Parser ((parent, true) :: stk) (regexp.Frame alts []) lr None)
    = regexp.parseLoop (globexpLoop y 0 false +:+ tail) 0
        (regexp.Parser stk
           (regexp.pushNode
              (regexp.OpCapture
                 (fold_left (fun acc x => regexp.OpAlternate x acc) alts
                    (alternation (sequence (literals a))
                                 (map (fun c => sequence (literals c)) choices))))
              parent)
           false None).
Proof.
  induction choices as [|b choices IH]; intros a y tail parent stk alts lr HF;
    apply Forall_cons_iff in HF as [Ha HF].
  - cbn [Join map alternation].
    rewrite (parse_literal_run a ("}" +:+ y) tail true _ _ _ _ Ha eq_refl).
    change ("}" +:+ y) with (String "}" y).
    rewrite globexpLoop_close, append_assoc, parse_close.
    unfold regexp.alternate. cbn [regexp.alts regexp.cur]. now rewrite app_nil_r, concat_rev.
  - change (Join (a :: b :: choices) ",") with (a +:+ "," +:+ Join (b :: choices) ",").
    rewrite !append_assoc.
    rewrite (parse_literal_run a ("," +:+ Join (b :: choices) "," +:+ "}" +:+ y)
               tail true _ _ _ _ Ha eq_refl).
    change ("," +:+ Join (b :: choices) "," +:+ "}" +:+ y)
      with (String "," (Join (b :: choices) "," +:+ "}" +:+ y)).
    rewrite globexpLoop_comma, append_assoc, parse_bar.
    rewrite (IH b y tail parent stk _ false HF).
    rewrite app_nil_r, concat_rev. reflexivity.
Qed.

Lemma Matches_alternation (a : regexp.node) (rest : list regexp.node) pre mid post :
  Matches (alternation a rest) pre mid post
  <-> exists x, In x (a :: rest) /\ Matches x pre mid post.
Proof.
  revert a. induction rest as [|b rest IH]; intros a; cbn [alternation].
  - split; [intros H; exists a; split; [now left | exact H] | now intros (x & [<- | []] & H)].
  - split.
    + intros H. invert H.
      * exists a. split; [now left | assumption].
      * match goal with Hm : Matches (alternation _ _) _ _ _ |- _ =>
          apply IH in Hm as (x & Hx & Hm') end.
        exists x. split; [now right | exact Hm'].
    + intros (x & [<- | Hx] & H); [now apply MatchesAlternateL|].
      apply MatchesAlternateR, IH. now exists x.
Qed.

Lemma Matches_literal_text (c : string) pre mid post :
  Matches (sequence (literals c)) pre mid post <-> mid = list_ascii_of_string c.
Proof.
  unfold literals. rewrite <- (app_nil_r (map _ _)), Matches_literals. split.
  - intros (m2 & -> & H). cbn in H. invert H. now rewrite app_nil_r.
  - intros ->. exists []. split; [now rewrite app_nil_r | constructor].
Qed.

(** X9.  For ASCII texts [x] and [y] without star, question mark,
    bracket and brace, and a non-empty list of ASCII texts without these
    and without comma, the pattern made of [x], the texts of the list
    between braces and separated by commas, and [y] compiles, and its
    expression matches exactly the texts made of [x], one text of the
    list, and [y]. *)
Theorem Globexp_alternatives (x y : string) (choices : list string) :
  isASCII x = true -> isASCII y = true ->
  Forall (fun c => isASCII c = true) choices ->
  containsAny x "*?[]{}" = false ->
  containsAny y "*?[]{}" = false ->
  Forall (fun c => containsAny c "*?[]{}," = false) choices ->
  choices <> [] ->
  exists re, Globexp (x +:+ "{" +:+ Join choices "," +:+ "}" +:+ y) = Value re
    /\ forall s, regexp.MatchString re s = true
         <-> exists c, In c choices /\ s = x +:+ c +:+ y.
Proof.
  intros _ _ _ Hx Hy HF Hne. destruct choices as [|a choices]; [contradiction|]. clear Hne.
  set (group := regexp.OpCapture
                  (alternation (sequence (literals a))
                               (map (fun c => sequence (literals c)) choices))).
  destruct (Globexp_prog (x +:+ "{" +:+ Join (a :: choices) "," +:+ "}" +:+ y)
              (literals x ++ [group] ++ literals y))
    as (re & Hre & Hmatch).
  - rewrite (parse_literal_prefix x ("{" +:+ Join (a :: choices) "," +:+ "}" +:+ y)
               "$" _ false Hx eq_refl).
    change ("{" +:+ Join (a :: choices) "," +:+ "}" +:+ y)
      with (String "{" (Join (a :: choices) "," +:+ "}" +:+ y)).
    rewrite globexpLoop_open, append_assoc, parse_open by apply globexpLoop_head.
    rewrite (parse_alternatives choices a y "$" _ [] [] false HF).
    cbn [fold_left]. fold group. unfold regexp.pushNode. cbn [regexp.alts regexp.cur].
    change (regexp.Parser [] (regexp.Frame [] (group :: rev (literals x) ++ [regexp.OpBeginText]))
              false None)
      with (flat (group :: rev (literals x) ++ [regexp.OpBeginText]) false).
    rewrite <- (append_nil_r y) at 1.
    rewrite (parse_literal_prefix y "" "$" _ _ Hy eq_refl).
    change (globexpLoop "" 0 false +:+ "$") with "$". rewrite parse_end.
    rewrite !rev_app_distr, <- !app_assoc. reflexivity.
  - exists re. split; [exact Hre|]. intros s. rewrite Hmatch. unfold literals at 1.
    rewrite <- app_assoc, Matches_literals. cbn [app]. split.
    + intros (m2 & Hs & H).
      apply Matches_sequence_cons in H as (m1 & m3 & -> & H1 & H2).
      unfold group in H1. invert H1.
      match goal with Hm : Matches (alternation _ _) _ _ _ |- _ =>
        apply Matches_alternation in Hm as (n & Hn & H) end.
      change (sequence (literals a) :: map (fun c => sequence (literals c)) choices)
        with (map (fun c => sequence (literals c)) (a :: choices)) in Hn.
      apply in_map_iff in Hn as (c & <- & Hc). apply Matches_literal_text in H. subst m1.
      unfold literals in H2. apply Matches_literals in H2 as (m4 & -> & H2).
      cbn in H2. invert H2.
      exists c. split; [exact Hc|]. apply list_ascii_inj.
      rewrite Hs, !list_ascii_app. now rewrite app_nil_r.
    + intros (c & Hc & ->). exists (list_ascii_of_string (c +:+ y)).
      split; [now rewrite !list_ascii_app|].
      apply Matches_sequence_cons.
      exists (list_ascii_of_string c), (list_ascii_of_string y).
      split; [now rewrite list_ascii_app|]. split.
      * unfold group. constructor. apply Matches_alternation.
        exists (sequence (literals c)). split; [|now apply Matches_literal_text].
        change (sequence (literals a) :: map (fun c => sequence (literals c)) choices)
          with (map (fun c => sequence (literals c)) (a :: choices)).
        apply in_map_iff. now exists c.
      * unfold literals. apply Matches_literals. exists [].
        split; [now rewrite app_nil_r | constructor].
Qed.

Lemma Globexp_alternatives_witness :
  isASCII "img/logo." = true
  /\ isASCII "" = true
  /\ Forall (fun c => isASCII c = true) ["png"; "jpg"; "svg"]
  /\ containsAny "img/logo." "*?[]{}" = false
  /\ containsAny "" "*?[]{}" = false
  /\ Forall (fun c => containsAny c "*?[]{}," = false) ["png"; "jpg"; "svg"]
  /\ ["png"; "jpg"; "svg"] <> []
  /\ exists re,
       Globexp ("img/logo." +:+ "{" +:+ Join ["png"; "jpg"; "svg"] "," +:+ "}" +:+ "") = Value re
       /\ forall s, regexp.MatchString re s = true
            <-> exists c, In c ["png"; "jpg"; "svg"] /\ s = "img/logo." +:+ c +:+ "".
Proof.
  assert (H1 : Forall (fun c => isASCII c = true) ["png"; "jpg"; "svg"])
    by (repeat constructor).
  assert (H2 : Forall (fun c => containsAny c "*?[]{}," = false) ["png"; "jpg"; "svg"])
    by (repeat constructor).
  split; [reflexivity|]. split; [reflexivity|]. split; [exact H1|].
  split; [reflexivity|]. split; [reflexivity|]. split; [exact H2|].
  split; [discriminate|].
  apply (Globexp_alternatives "img/logo." "" ["png"; "jpg"; "svg"]);
    (reflexivity || assumption || discriminate).
Defined.

(** ** Brackets *)

Lemma globexpLoop_bracket (glob' : string) (inGroup : bool) :
  globexpLoop (String "[" glob') 0 inGroup = "[" +:+ globexpLoop glob' 0 inGroup
  /\ globexpLoop (String "]" glob') 0 inGroup = "]" +:+ globexpLoop glob' 0 inGroup.
Proof. split; reflexivity. Qed.

(** What the loop writes for a byte that is copied or escaped, and how
    the parser reads it between brackets. *)
Lemma globexpRune_member (c : ascii) :
  ContainsByte "/*?[]{}-" c = false ->
  ContainsByte "/*?[]{}" c = false
  /\ ((fst (fst (globexpRune c "" false)) = String "\" (String c "")
       /\ regexp.perlGroup c = None
       /\ Ascii.eqb c "p" || Ascii.eqb c "P" = false
       /\ regexp.parseEscape c = inr c)
      \/ (fst (fst (globexpRune c "" false)) = String c ""
          /\ forall tl cs p,
               regexp.classToken (String c tl) cs p = regexp.classRange (String c tl) cs p
               /\ regexp.parseClassChar (String c tl) = inr (c, 1%nat)
               /\ HasPrefix (String c tl) "^" = false
               /\ HasPrefix (String c tl) "-" = false)).
Proof.
  destruct c as [[] [] [] [] [] [] [] []]; intros H; try discriminate H;
    (split; [reflexivity|]);
    first [ left; repeat split; reflexivity
          | right; split; [reflexivity | intros; repeat split; reflexivity] ].
Qed.

Lemma classRange_single (t : string) cs p (lo : ascii) (w : nat) :
  regexp.parseClassChar t = inr (lo, w) ->
  HasPrefix (regexp.dropBytes w t) "-" = false ->
  regexp.classRange t cs p = inr (regexp.addItem (regexp.ClassItem false [(lo, lo)]) cs p, w).
Proof.
  intros Hchar Hnext. unfold regexp.classRange. rewrite Hchar.
  destruct (regexp.dropBytes w t) as [|d r]; [reflexivity|].
  destruct d as [[] [] [] [] [] [] [] []]; try reflexivity. destruct r; discriminate Hnext.
Qed.

Lemma parse_class_member (c : ascii) (tl : string) stk top lr negated first items :
  ContainsByte "/*?[]{}-" c = false ->
  HasPrefix tl "-" = false ->
  regexp.parseLoop (fst (fst (globexpRune c "" false)) +:+ tl) 0
    (regexp.Parser stk top lr (Some (regexp.ClassState negated first items)))
  = regexp.parseLoop tl 0
      (regexp.Parser stk top false
         (Some (regexp.ClassState negated false (items ++ [regexp.ClassItem false [(c, c)]])))).
Proof.
  intros Hc Htl.
  destruct (globexpRune_member c Hc) as [_ [(-> & Hperl & Hp & Hesc) | (-> & Hplain)]].
  - change (String "\" (String c "") +:+ tl) with (String "\" (String c tl)).
    set (p := regexp.Parser stk top lr (Some (regexp.ClassState negated first items))).
    assert (Htok : regexp.classToken (String "\" (String c tl))
                     (regexp.ClassState negated first items) p
                   = inr (regexp.addItem (regexp.ClassItem false [(c, c)])
                            (regexp.ClassState negated first items) p, 2%nat)).
    { cbn [regexp.classToken]. rewrite Hp, Hperl. apply classRange_single; [|exact Htl].
      cbn [regexp.parseClassChar]. now rewrite Hesc. }
    unfold p at 1. cbn [regexp.parseLoop regexp.class]. fold p. rewrite Htok. reflexivity.
  - change (String c "" +:+ tl) with (String c tl).
    destruct (Hplain tl (regexp.ClassState negated first items)
                (regexp.Parser stk top lr (Some (regexp.ClassState negated first items))))
      as (Htok & Hchar & _ & _).
    cbn [regexp.parseLoop regexp.class]. rewrite Htok.
    rewrite (classRange_single _ _ _ c 1 Hchar Htl). reflexivity.
Qed.

Lemma member_head (c : ascii) (tl : string) :
  ContainsByte "/*?[]{}-" c = false ->
  HasPrefix (fst (fst (globexpRune c "" false)) +:+ tl) "^" = false
  /\ HasPrefix (fst (fst (globexpRune c "" false)) +:+ tl) "-" = false.
Proof.
  intros Hc.
  destruct (globexpRune_member c Hc) as [_ [(-> & _) | (-> & Hplain)]].
  - split; reflexivity.
  - destruct (Hplain tl (regexp.ClassState false false [])
                (regexp.Parser [] regexp.emptyFrame false None)) as (_ & _ & H1 & H2).
    now split.
Qed.

Lemma globexpLoop_member (c : ascii) (rest : string) :
  ContainsByte "/*?[]{}-" c = false ->
  globexpLoop (String c rest) 0 false
  = fst (fst (globexpRune c "" false)) +:+ globexpLoop rest 0 false.
Proof.
  intros Hc. destruct (globexpRune_member c Hc) as [Hlit _].
  cbn [globexpLoop]. now rewrite (globexpRune_literal c _ false Hlit).
Qed.

(** The parser reads what the loop writes between brackets, for bytes
    that are copied or escaped and no hyphen, as the members of the
    class. *)
Lemma parse_class_run (cs g tail : string) stk top lr negated first items :
  containsAny cs "/*?[]{}-" = false ->
  HasPrefix (globexpLoop g 0 false +:+ tail) "-" = false ->
  regexp.parseLoop (globexpLoop (cs +:+ g) 0 false +:+ tail) 0
    (regexp.Parser stk top lr (Some (regexp.ClassState negated first items)))
  = regexp.parseLoop (globexpLoop g 0 false +:+ tail) 0
      (regexp.Parser stk top (match cs with "" => lr | _ => false end)
         (Some (regexp.ClassState negated (match cs with "" => first | _ => false end)
                  (items ++ classItems cs)))).
Proof.
  revert lr first items. induction cs as [|c cs IH]; intros lr first items Hcs Hg.
  - unfold classItems. cbn [list_ascii_of_string map]. now rewrite app_nil_r.
  - destruct (containsAny_cons _ _ _ Hcs) as [Hc Hcs'].
    rewrite append_cons, (globexpLoop_member c _ Hc), append_assoc.
    rewrite parse_class_member; [|exact Hc|].
    + rewrite (IH false false _ Hcs' Hg).
      unfold classItems. cbn [list_ascii_of_string map]. rewrite <- app_assoc. cbn [app].
      now destruct cs.
    + destruct cs as [|c' cs]; [exact Hg|].
      destruct (containsAny_cons _ _ _ Hcs') as [Hc' _].
      rewrite append_cons, (globexpLoop_member c' _ Hc'), append_assoc.
      now apply member_head.
Qed.

Lemma parse_bracket_open (tail : string) items lr :
  HasPrefix tail "^" = false ->
  regexp.parseLoop ("[" +:+ tail) 0 (flat items lr)
  = regexp.parseLoop tail 0
      (regexp.Parser [] (regexp.Frame [] items) false
         (Some (regexp.ClassState false true []))).
Proof.
  intros H. change ("[" +:+ tail) with (String "[" tail).
  cbn [regexp.parseLoop regexp.class flat regexp.token]. rewrite H. reflexivity.
Qed.

Lemma parse_bracket_close (tail : string) stk alts items lr negated members :
  regexp.parseLoop ("]" +:+ tail) 0
    (regexp.Parser stk (regexp.Frame alts items) lr
       (Some (regexp.ClassState negated false members)))
  = regexp.parseLoop tail 0
      (regexp.Parser stk (regexp.Frame alts (regexp.OpCharClass negated members :: items))
         false None).
Proof. reflexivity. Qed.

Lemma inRange_single (c d : ascii) : regexp.inRange d (c, c) = Ascii.eqb c d.
Proof.
  unfold regexp.inRange, regexp.byteLe. cbn [fst snd].
  destruct (Ascii.eqb c d) eqn:E.
  - apply Ascii.eqb_eq in E. subst d. now rewrite N.leb_refl.
  - apply andb_false_iff.
    destruct (N_of_ascii c <=? N_of_ascii d)%N eqn:E1; [|now left].
    destruct (N_of_ascii d <=? N_of_ascii c)%N eqn:E2; [|now right].
    apply N.leb_le in E1, E2. apply Ascii.eqb_neq in E. exfalso. apply E.
    rewrite <- (ascii_N_embedding c), <- (ascii_N_embedding d). f_equal. lia.
Qed.

Lemma Matches_classItems (cs : string) pre mid post :
  Matches (regexp.OpCharClass false (classItems cs)) pre mid post
  <-> exists c, In c (list_ascii_of_string cs) /\ mid = [c].
Proof.
  assert (Hin : forall d, regexp.inClass false (classItems cs) d = true
                          <-> In d (list_ascii_of_string cs)).
  { intros d. unfold regexp.inClass, classItems. cbn [xorb].
    rewrite existsb_exists. split.
    - intros (it & Hit & H). apply in_map_iff in Hit as (c & <- & Hc).
      unfold regexp.inItem in H. cbn in H. rewrite orb_false_r, inRange_single in H.
      apply Ascii.eqb_eq in H. now subst d.
    - intros Hd. exists (regexp.ClassItem false [(d, d)]). split; [apply in_map_iff; eauto|].
      unfold regexp.inItem. cbn. rewrite orb_false_r, inRange_single. apply Ascii.eqb_refl. }
  split.
  - intros H. invert H. eexists. split; [apply Hin; eassumption | reflexivity].
  - intros (c & Hc & ->). constructor. now apply Hin.
Qed.

(** X10.  For ASCII texts [x] and [y] without star, question mark,
    bracket and brace, and a non-empty ASCII text [cs] without these,
    without separator and without hyphen, the pattern made of [x], [cs]
    between brackets, and [y] compiles, and its expression matches
    exactly the texts made of [x], one byte of [cs], and [y].  An
    exclamation mark or a caret in [cs], also in front, is a member like
    the others: [Globexp] escapes both, so that no pattern negates a
    class. *)
Theorem Globexp_bracket (x y cs : string) :
  isASCII x = true -> isASCII y = true -> isASCII cs = true ->
  containsAny x "*?[]{}" = false ->
  containsAny y "*?[]{}" = false ->
  containsAny cs "/*?[]{}-" = false ->
  cs <> "" ->
  exists re, Globexp (x +:+ "[" +:+ cs +:+ "]" +:+ y) = Value re
    /\ forall s, regexp.MatchString re s = true
         <-> exists c, In c (list_ascii_of_string cs) /\ s = x +:+ String c y.
Proof.
  intros _ _ _ Hx Hy Hcs Hne.
  set (class := regexp.OpCharClass false (classItems cs)).
  destruct (Globexp_prog (x +:+ "[" +:+ cs +:+ "]" +:+ y)
              (literals x ++ [class] ++ literals y))
    as (re & Hre & Hmatch).
  - rewrite (parse_literal_prefix x ("[" +:+ cs +:+ "]" +:+ y) "$" _ false Hx eq_refl).
    change ("[" +:+ cs +:+ "]" +:+ y) with (String "[" (cs +:+ "]" +:+ y)).
    rewrite (proj1 (globexpLoop_bracket _ _)), append_assoc.
    rewrite parse_bracket_open.
    2:{ destruct cs as [|c cs]; [contradiction|].
        destruct (containsAny_cons _ _ _ Hcs) as [Hc _].
        rewrite append_cons, (globexpLoop_member c _ Hc), append_assoc.
        now apply member_head. }
    rewrite (parse_class_run cs ("]" +:+ y) "$" _ _ _ _ _ _ Hcs eq_refl).
    change ("]" +:+ y) with (String "]" y).
    rewrite (proj2 (globexpLoop_bracket _ _)), append_assoc.
    destruct cs as [|c cs]; [contradiction|].
    rewrite parse_bracket_close. cbn [app]. fold class.
    change (regexp.Parser [] (regexp.Frame [] (class :: rev (literals x) ++ [regexp.OpBeginText]))
              false None)
      with (flat (class :: rev (literals x) ++ [regexp.OpBeginText]) false).
    rewrite <- (append_nil_r y) at 1.
    rewrite (parse_literal_prefix y "" "$" _ _ Hy eq_refl).
    change (globexpLoop "" 0 false +:+ "$") with "$". rewrite parse_end.
    rewrite !rev_app_distr. cbn [rev]. rewrite <- !app_assoc. reflexivity.
  - exists re. split; [exact Hre|]. intros s. rewrite Hmatch. unfold literals at 1.
    rewrite <- app_assoc, Matches_literals. cbn [app]. split.
    + intros (m2 & Hs & H).
      apply Matches_sequence_cons in H as (m1 & m3 & -> & H1 & H2).
      apply Matches_classItems in H1 as (c & Hc & ->).
      unfold literals in H2. apply Matches_literals in H2 as (m4 & -> & H2).
      cbn in H2. invert H2.
      exists c. split; [exact Hc|]. apply list_ascii_inj.
      rewrite Hs, !list_ascii_app. cbn. now rewrite app_nil_r.
    + intros (c & Hc & ->). exists (c :: list_ascii_of_string y).
      split; [now rewrite !list_ascii_app|].
      apply Matches_sequence_cons. exists [c], (list_ascii_of_string y).
      split; [reflexivity|]. split.
      * apply Matches_classItems. now exists c.
      * unfold literals. apply Matches_literals. exists [].
        split; [now rewrite app_nil_r | constructor].
Qed.

Lemma Globexp_bracket_witness :
  isASCII "file" = true
  /\ isASCII ".txt" = true
  /\ isASCII "!^a1" = true
  /\ containsAny "file" "*?[]{}" = false
  /\ containsAny ".txt" "*?[]{}" = false
  /\ containsAny "!^a1" "/*?[]{}-" = false
  /\ "!^a1" <> ""
  /\ exists re, Globexp ("file" +:+ "[" +:+ "!^a1" +:+ "]" +:+ ".txt") = Value re
       /\ forall s, regexp.MatchString re s = true
            <-> exists c, In c (list_ascii_of_string "!^a1")
                  /\ s = "file" +:+ String c ".txt".
Proof.
  split; [reflexivity|]. split; [reflexivity|]. split; [reflexivity|].
  split; [reflexivity|]. split; [reflexivity|]. split; [reflexivity|].
  split; [discriminate|].
  apply (Globexp_bracket "file" ".txt" "!^a1"); (reflexivity || discriminate).
Defined.

(* ===================================================================== *)
(** * The resolution engine: further properties *)
(* ===================================================================== *)

Section Engine.

Context {FileInfo error : Type}.
Variable Walk : string -> list (string * FileInfo * option error) * option error.

Implicit Types (st : globState FileInfo) (mp : gmap string (option (FileAsset FileInfo))).

Lemma walkFiles_elem (root : string) fileAssets (file : FileAsset FileInfo) :
  walkFiles Walk root = inr fileAssets ->
  file ∈ fileAssets
  <-> In (Path file, Info file, None) (fst (Walk root)) /\ PatternRoot file = "".
Proof.
  unfold walkFiles. destruct (Walk root) as [vs [e|]]; [discriminate|]. intros [= <-].
  cbn [fst]. rewrite list_elem_of_omap. split.
  - intros ([[path info] [e|]] & Hin & Heq); [discriminate|]. injection Heq as <-.
    cbn. split; [now apply list_elem_of_In | reflexivity].
  - intros [Hin Hroot]. exists (Path file, Info file, None). split; [now apply list_elem_of_In|].
    destruct file as [i p r]. cbn in *. now subst r.
Qed.

Lemma insertMatches_last re root fileAssets mp (p : string) :
  regexp.MatchString re p = true ->
  Exists (fun file => Path file = p) fileAssets ->
  exists file, file ∈ fileAssets /\ Path file = p
    /\ insertMatches re root fileAssets mp !! p = Some (Some (mkFileAsset (Info file) p root)).
Proof.
  intros Hre. revert mp. induction fileAssets as [|f fs IH]; intros mp Hex; [inversion Hex|].
  rewrite insertMatches_cons.
  destruct (decide (Exists (fun file => Path file = p) fs)) as [Hfs|Hfs].
  - edestruct IH as (file & Hin & Hp & Hl); [exact Hfs|]. exists file.
    split; [now right | split; [exact Hp | exact Hl]].
  - apply not_Exists_Forall in Hfs; [|intros x; apply _].
    inversion Hex as [? ? Hf | ? ? Hex']; subst; [|apply Exists_exists in Hex';
       destruct Hex' as (x & Hx & Hpx); rewrite Forall_forall in Hfs; now destruct (Hfs x Hx)].
    exists f. split; [now left | split; [reflexivity|]].
    rewrite insertMatches_miss by (right; exact Hfs).
    rewrite Hre. now rewrite lookup_insert_eq.
Qed.

Lemma globPattern_inserted st q st' (p : string) :
  globPattern Walk patternRoot st q = Continue st' ->
  reinserts Walk p q = true ->
  exists info, In (p, info, None) (fst (Walk (patternRoot q)))
    /\ m st' !! p = Some (Some (mkFileAsset info p (patternRoot q))).
Proof.
  unfold globPattern, reinserts. intros Hstep Hre.
  apply andb_true_iff in Hre as [Hre Hvis]. apply andb_true_iff in Hre as [Hneg Hre].
  apply negb_true_iff in Hneg. rewrite Hneg in Hstep.
  destruct (Globexp q) as [re|]; [|discriminate].
  destruct (String.eqb (patternRoot q) ""); [discriminate|].
  destruct (walkFiles Walk (patternRoot q)) as [|fs] eqn:Hwalk; [discriminate|].
  injection Hstep as <-. cbn [m].
  apply (walkFiles_visits Walk _ p fs Hwalk) in Hvis.
  destruct (insertMatches_last re (patternRoot q) fs (m st) p Hre Hvis) as (file & Hin & Hp & Hl).
  exists (Info file). split; [|exact Hl].
  apply (walkFiles_elem _ _ file Hwalk) in Hin as [Hin _]. now rewrite Hp in Hin.
Qed.

(** Where an asset of the result set comes from. *)
Lemma globLoop_origin (ps : list string) st st' (p : string) (a : FileAsset FileInfo) :
  globLoop Walk patternRoot ps st = Continue st' ->
  m st' !! p = Some (Some a) ->
  (m st !! p = Some (Some a)
   /\ existsb (reinserts Walk p) ps = false /\ existsb (removes p) ps = false)
  \/ exists pre inc post info,
       ps = pre ++ inc :: post
       /\ reinserts Walk p inc = true
       /\ existsb (reinserts Walk p) post = false
       /\ existsb (removes p) post = false
       /\ In (p, info, None) (fst (Walk (patternRoot inc)))
       /\ a = mkFileAsset info p (patternRoot inc).
Proof.
  revert st. induction ps as [|q ps IH]; intros st Hloop Ha.
  - injection Hloop as <-. now left.
  - cbn [globLoop] in Hloop.
    destruct (globPattern Walk patternRoot st q) as [st1| |] eqn:Hstep; try discriminate.
    destruct (IH st1 Hloop Ha) as [(H1 & Hre & Hrm) | (pre & inc & post & info & -> & H)].
    + pose proof (globPattern_lookup Walk st q st1 p Hstep) as Hl.
      destruct (reinserts Walk p q) eqn:Hq.
      * right. destruct (globPattern_inserted st q st1 p Hstep Hq) as (info & Hin & Hl').
        exists [], q, ps, info. rewrite H1 in Hl'. injection Hl' as ->.
        repeat split; assumption.
      * destruct (removes p q) eqn:Hr.
        -- rewrite H1 in Hl. destruct (m st !! p); discriminate.
        -- left. cbn [existsb]. rewrite Hq, Hr, Hre, Hrm, <- Hl. now split.
    + right. exists (q :: pre), inc, post, info. split; [reflexivity | exact H].
Qed.

Lemma globLoop_unchanged (ps : list string) st st' (p : string) :
  globLoop Walk patternRoot ps st = Continue st' ->
  existsb (reinserts Walk p) ps = false ->
  existsb (removes p) ps = false ->
  m st' !! p = m st !! p.
Proof.
  revert st. induction ps as [|q ps IH]; intros st Hloop Hre Hrm.
  - now injection Hloop as <-.
  - cbn [globLoop] in Hloop. cbn [existsb] in Hre, Hrm.
    apply orb_false_iff in Hre as [Hq Hre]. apply orb_false_iff in Hrm as [Hr Hrm].
    destruct (globPattern Walk patternRoot st q) as [st1| |] eqn:Hstep; try discriminate.
    pose proof (globPattern_lookup Walk st q st1 p Hstep) as Hl. rewrite Hq, Hr in Hl.
    rewrite (IH st1 Hloop Hre Hrm). exact Hl.
Qed.

Lemma globLoop_regexps (ps : list string) st st' :
  globLoop Walk patternRoot ps st = Continue st' ->
  exists rs, regexps st' = regexps st ++ rs /\ Forall2 compiledFrom ps rs.
Proof.
  revert st. induction ps as [|q ps IH]; intros st Hloop.
  - injection Hloop as <-. exists []. split; [now rewrite app_nil_r | constructor].
  - cbn [globLoop] in Hloop.
    destruct (globPattern Walk patternRoot st q) as [st1| |] eqn:Hstep; try discriminate.
    destruct (IH st1 Hloop) as (rs & Hrs & HF).
    assert (exists r, regexps st1 = regexps st ++ [r] /\ compiledFrom q r) as (r & Hr & Hc).
    { unfold globPattern in Hstep. unfold compiledFrom.
      destruct (HasPrefix q "!").
      - destruct (Globexp (dropFirst q)) as [re|] eqn:G; [|discriminate].
        injection Hstep as <-. eexists. split; [reflexivity|]. now split.
      - destruct (Globexp q) as [re|] eqn:G; [|discriminate].
        destruct (String.eqb (patternRoot q) ""); [discriminate|].
        destruct (walkFiles Walk (patternRoot q)); [discriminate|].
        injection Hstep as <-. eexists. split; [reflexivity|]. now split. }
    exists (r :: rs). split; [|now constructor].
    rewrite Hrs, Hr, <- app_assoc. reflexivity.
Qed.

Lemma collectKeys_NoDup mp : keyed mp -> NoDup (map Path (collectKeys mp)).
Proof.
  intros Hk. unfold collectKeys.
  pose proof (NoDup_fst_map_to_list mp) as Hnd.
  assert (Hin : forall k a, (k, Some a) ∈ map_to_list mp -> Path a = k).
  { intros k a H. apply elem_of_map_to_list in H. now apply Hk. }
  induction (map_to_list mp) as [|[k [a|]] l IH]; cbn in *.
  - constructor.
  - apply NoDup_cons in Hnd as [Hk' Hnd]. apply NoDup_cons. split.
    + rewrite (Hin k a) by now left. intros H. apply Hk'.
      apply list_elem_of_In, in_map_iff in H as (b & Hb & H). apply list_elem_of_In in H.
      apply list_elem_of_omap in H as ([k' v] & Hl & Hv). cbn in Hv. subst v.
      apply list_elem_of_fmap. exists (k', Some b). split; [|exact Hl].
      cbn. rewrite <- Hb. apply Hin. now right.
    + apply IH; [exact Hnd|]. intros k' a' H. apply Hin. now right.
  - apply NoDup_cons in Hnd as [_ Hnd]. apply IH; [exact Hnd|].
    intros k' a' H. apply Hin. now right.
Qed.

Lemma globLoop_same_map (ps : list string) st1 st2 st1' :
  m st1 = m st2 ->
  globLoop Walk patternRoot ps st1 = Continue st1' ->
  exists st2', globLoop Walk patternRoot ps st2 = Continue st2' /\ m st1' = m st2'.
Proof.
  revert st1 st2. induction ps as [|q ps IH]; intros st1 st2 Hm Hloop.
  - injection Hloop as <-. now exists st2.
  - cbn [globLoop] in *.
    destruct (globPattern Walk patternRoot st1 q) as [s1| |] eqn:Hstep; try discriminate.
    assert (exists s2, globPattern Walk patternRoot st2 q = Continue s2 /\ m s1 = m s2)
      as (s2 & -> & Hs).
    { unfold globPattern in *. rewrite <- Hm.
      destruct (HasPrefix q "!").
      - destruct (Globexp (dropFirst q)); [|discriminate]. injection Hstep as <-.
        eexists. split; reflexivity.
      - destruct (Globexp q); [|discriminate].
        destruct (String.eqb (patternRoot q) ""); [discriminate|].
        destruct (walkFiles Walk (patternRoot q)); [discriminate|]. injection Hstep as <-.
        eexists. split; reflexivity. }
    exact (IH s1 s2 Hs Hloop).
Qed.

Lemma globLoop_negations (ps : list string) st st' :
  Forall (fun q => HasPrefix q "!" = true) ps ->
  globLoop Walk patternRoot ps st = Continue st' ->
  m st = ∅ -> m st' = ∅.
Proof.
  intros HF. revert st. induction HF as [|q ps Hq HF IH]; intros st Hloop Hm.
  - now injection Hloop as <-.
  - cbn [globLoop] in Hloop.
    destruct (globPattern Walk patternRoot st q) as [st1| |] eqn:Hstep; try discriminate.
    apply (IH st1 Hloop). unfold globPattern in Hstep. rewrite Hq in Hstep.
    destruct (Globexp (dropFirst q)); [|discriminate]. injection Hstep as <-. cbn [m].
    rewrite Hm. apply map_eq. intros p. rewrite removeMatches_lookup, lookup_empty. reflexivity.
Qed.

End Engine.

(** X11.  [walkFiles] returns the error of the walk when the walk fails,
    whatever entries were visited.  Otherwise it returns the entries that
    the walk reported without error, each with its path and its file
    information and with an empty [PatternRoot]; an entry reported with
    an error is left out, and its error is not returned. *)
Theorem walkFiles_outcome {FileInfo error : Type}
    (Walk : string -> list (string * FileInfo * option error) * option error)
    (root : string) :
  match snd (Walk root) with
  | Some e => walkFiles Walk root = inl e
  | None =>
      exists fileAssets,
        walkFiles Walk root = inr fileAssets
        /\ forall file, file ∈ fileAssets
             <-> In (Path file, Info file, None) (fst (Walk root))
                 /\ PatternRoot file = ""
  end.
Proof.
  destruct (snd (Walk root)) as [e|] eqn:Herr.
  - unfold walkFiles. destruct (Walk root) as [vs err]. cbn in Herr. now subst err.
  - assert (exists fileAssets, walkFiles Walk root = inr fileAssets) as [fs Hfs].
    { unfold walkFiles. destruct (Walk root) as [vs err]. cbn in Herr. subst err. eauto. }
    exists fs. split; [exact Hfs|]. intros file. now apply walkFiles_elem.
Qed.

(** X12.  When [Glob] returns, the list of expressions it returns has one
    entry for each pattern, in the order of the patterns: the entry holds
    the expression compiled from the pattern, without its [!] when the
    pattern is a negation, and [Negate] tells whether it is a negation. *)
Theorem Glob_regexps {FileInfo error : Type}
    (Walk : string -> list (string * FileInfo * option error) * option error)
    (patterns : list string) (keys : list (FileAsset FileInfo)) (rs : list RegexpInfo) :
  Glob Walk patterns = Returned keys rs ->
  Forall2 compiledFrom patterns rs.
Proof.
  unfold Glob, globWith.
  destruct (globLoop Walk patternRoot patterns (mkGlobState ∅ [])) as [st| |] eqn:Hloop;
    try discriminate.
  intros [= <- <-]. destruct (globLoop_regexps Walk _ _ _ Hloop) as (rs & -> & HF). exact HF.
Qed.

Lemma Glob_regexps_witness :
  let ps := ["**/*.go"; "!vendor/**"] in
  let keys := match Glob sampleWalk ps with
              | Returned keys _ => keys
              | _ => []
              end in
  let rs := match Glob sampleWalk ps with
            | Returned _ rs => rs
            | _ => []
            end in
  Glob sampleWalk ps = Returned keys rs
  /\ Forall2 compiledFrom ps rs.
Proof.
  intros ps keys rs. split; [vm_compute; reflexivity|].
  apply (Glob_regexps sampleWalk ps keys rs). vm_compute; reflexivity.
Defined.


(** X13.  The assets that [Glob] returns have pairwise distinct paths:
    a path found by several patterns is returned once. *)
Theorem Glob_paths_distinct {FileInfo error : Type}
    (Walk : string -> list (string * FileInfo * option error) * option error)
    (patterns : list string) (keys : list (FileAsset FileInfo)) (rs : list RegexpInfo) :
  Glob Walk patterns = Returned keys rs -> NoDup (map Path keys).
Proof.
  unfold Glob, globWith.
  destruct (globLoop Walk patternRoot patterns (mkGlobState ∅ [])) as [st| |] eqn:Hloop;
    try discriminate.
  intros [= <- <-]. apply collectKeys_NoDup.
  eapply globLoop_keyed; [exact Hloop | apply keyed_empty].
Qed.

Lemma Glob_paths_distinct_witness :
  let ps := ["**/*.go"; "vendor/**"] in
  let keys := match Glob sampleWalk ps with
              | Returned keys _ => keys
              | _ => []
              end in
  let rs := match Glob sampleWalk ps with
            | Returned _ rs => rs
            | _ => []
            end in
  Glob sampleWalk ps = Returned keys rs
  /\ NoDup (map Path keys).
Proof.
  intros ps keys rs. split; [vm_compute; reflexivity|].
  apply (Glob_paths_distinct sampleWalk ps keys rs). vm_compute; reflexivity.
Defined.


(** X14.  Every asset that [Glob] returns comes from an inclusion
    pattern of the list: the walk from the root of that pattern reported
    the path of the asset without error and with the file information of
    the asset, the expression of the pattern matches the path, the asset
    carries the root of that pattern as [PatternRoot], and no later
    pattern removes the path or inserts it anew. *)
Theorem Glob_asset_origin {FileInfo error : Type}
    (Walk : string -> list (string * FileInfo * option error) * option error)
    (patterns : list string) (keys : list (FileAsset FileInfo)) (rs : list RegexpInfo)
    (a : FileAsset FileInfo) :
  Glob Walk patterns = Returned keys rs ->
  a ∈ keys ->
  exists pre inc post,
    patterns = pre ++ inc :: post
    /\ reinserts Walk (Path a) inc = true
    /\ existsb (reinserts Walk (Path a)) post = false
    /\ existsb (removes (Path a)) post = false
    /\ In (Path a, Info a, None) (fst (Walk (patternRoot inc)))
    /\ PatternRoot a = patternRoot inc.
Proof.
  unfold Glob, globWith.
  destruct (globLoop Walk patternRoot patterns (mkGlobState ∅ [])) as [st| |] eqn:Hloop;
    try discriminate.
  intros [= <- <-] Ha. apply collectKeys_elem in Ha as [p Hp].
  destruct (globLoop_origin Walk _ _ _ p a Hloop Hp)
    as [(H & _) | (pre & inc & post & info & -> & Hre & Hpost & Hrm & Hin & ->)].
  - cbn in H. rewrite lookup_empty in H. discriminate.
  - exists pre, inc, post. cbn [Path Info PatternRoot]. repeat split; assumption.
Qed.

Lemma Glob_asset_origin_witness :
  let ps := ["**/*.go"; "!vendor/**"; "vendor/keep.go"] in
  let keys := match Glob sampleWalk ps with
              | Returned keys _ => keys
              | _ => []
              end in
  let rs := match Glob sampleWalk ps with
            | Returned _ rs => rs
            | _ => []
            end in
  let a := mkFileAsset false "vendor/keep.go" "vendor" in
  Glob sampleWalk ps = Returned keys rs
  /\ a ∈ keys
  /\ exists pre inc post,
       ps = pre ++ inc :: post
       /\ reinserts sampleWalk (Path a) inc = true
       /\ existsb (reinserts sampleWalk (Path a)) post = false
       /\ existsb (removes (Path a)) post = false
       /\ In (Path a, Info a, None) (fst (sampleWalk (patternRoot inc)))
       /\ PatternRoot a = patternRoot inc.
Proof.
  intros ps keys rs a. split; [vm_compute; reflexivity|].
  assert (Ha : a ∈ keys) by (apply list_elem_of_In; vm_compute; tauto).
  split; [exact Ha|].
  apply (Glob_asset_origin sampleWalk ps keys rs a); [vm_compute; reflexivity | exact Ha].
Defined.


(** X15.  When several inclusion patterns find a path, the last one
    decides: if [Glob] returns, the pattern [inc] inserts the path [p],
    and no later pattern inserts or removes [p], then an asset of path [p]
    is returned, with the root of [inc] as [PatternRoot] and with file
    information that the walk from that root reported for [p]. *)
Theorem Glob_last_inclusion_wins {FileInfo error : Type}
    (Walk : string -> list (string * FileInfo * option error) * option error)
    (pre : list string) (inc : string) (post : list string) (p : string)
    (keys : list (FileAsset FileInfo)) (rs : list RegexpInfo) :
  Glob Walk (pre ++ inc :: post) = Returned keys rs ->
  reinserts Walk p inc = true ->
  existsb (reinserts Walk p) post = false ->
  existsb (removes p) post = false ->
  exists a, a ∈ keys /\ Path a = p /\ PatternRoot a = patternRoot inc
            /\ In (p, Info a, None) (fst (Walk (patternRoot inc))).
Proof.
  unfold Glob, globWith.
  destruct (globLoop Walk patternRoot (pre ++ inc :: post) (mkGlobState ∅ []))
    as [st| |] eqn:Hloop; try discriminate.
  intros [= <- <-] Hre Hpost Hrm.
  rewrite globLoop_app in Hloop.
  destruct (globLoop Walk patternRoot pre (mkGlobState ∅ [])) as [st0| |]; try discriminate.
  cbn [globLoop] in Hloop.
  destruct (globPattern Walk patternRoot st0 inc) as [st1| |] eqn:Hstep; try discriminate.
  destruct (globPattern_inserted Walk st0 inc st1 p Hstep Hre) as (info & Hin & Hl).
  exists (mkFileAsset info p (patternRoot inc)). cbn [Path Info PatternRoot].
  split; [|repeat split; assumption].
  apply collectKeys_elem. exists p.
  rewrite (globLoop_unchanged Walk post st1 st p Hloop Hpost Hrm). exact Hl.
Qed.

Lemma Glob_last_inclusion_wins_witness :
  let ps := ["**/*.go"] ++ "vendor/**" :: ["!main.go"] in
  let keys := match Glob sampleWalk ps with
              | Returned keys _ => keys
              | _ => []
              end in
  let rs := match Glob sampleWalk ps with
            | Returned _ rs => rs
            | _ => []
            end in
  Glob sampleWalk ps = Returned keys rs
  /\ reinserts sampleWalk "vendor/lib.go" "vendor/**" = true
  /\ existsb (reinserts sampleWalk "vendor/lib.go") ["!main.go"] = false
  /\ existsb (removes "vendor/lib.go") ["!main.go"] = false
  /\ exists a, a ∈ keys /\ Path a = "vendor/lib.go"
       /\ PatternRoot a = patternRoot "vendor/**"
       /\ In ("vendor/lib.go", Info a, None) (fst (sampleWalk (patternRoot "vendor/**"))).
Proof.
  intros ps keys rs.
  split; [vm_compute; reflexivity|]. split; [vm_compute; reflexivity|].
  split; [vm_compute; reflexivity|]. split; [vm_compute; reflexivity|].
  apply (Glob_last_inclusion_wins sampleWalk ["**/*.go"] "vendor/**" ["!main.go"]
           "vendor/lib.go" keys rs); vm_compute; reflexivity.
Defined.


(** X16.  When the walk for an inclusion pattern fails, [Glob] returns
    the error of that walk and neither assets nor expressions: what the
    patterns before it found is dropped, and the patterns after it are
    not looked at. *)
Theorem Glob_walk_error {FileInfo error : Type}
    (Walk : string -> list (string * FileInfo * option error) * option error)
    (pre : list string) (inc : string) (post : list string)
    (st : globState FileInfo) (re : regexp.Regexp) (e : error) :
  globLoop Walk patternRoot pre (mkGlobState ∅ []) = Continue st ->
  HasPrefix inc "!" = false ->
  Globexp inc = Value re ->
  snd (Walk (patternRoot inc)) = Some e ->
  Glob Walk (pre ++ inc :: post) = Failed e.
Proof.
  intros Hpre Hneg Hre Hwalk. unfold Glob, globWith.
  rewrite globLoop_app, Hpre. cbn [globLoop]. unfold globPattern. rewrite Hneg, Hre.
  destruct (patternRoot_nonempty inc Hneg) as [Hroot _].
  apply String.eqb_neq in Hroot. rewrite Hroot.
  unfold walkFiles. destruct (Walk (patternRoot inc)) as [vs err]. cbn in Hwalk. subst err.
  reflexivity.
Qed.

Lemma Glob_walk_error_witness :
  let failing := fun root : string =>
    if String.eqb root "vendor"
    then ([("vendor", true, None)], Some "permission denied")
    else sampleWalk root in
  let st := match globLoop failing patternRoot ["**/*.go"] (mkGlobState ∅ []) with
            | Continue st => st
            | _ => mkGlobState ∅ []
            end in
  let re := match Globexp "vendor/**" with
            | Value re => re
            | Panics _ => regexp.mkRegexp "" regexp.OpEmptyMatch
            end in
  globLoop failing patternRoot ["**/*.go"] (mkGlobState ∅ []) = Continue st
  /\ HasPrefix "vendor/**" "!" = false
  /\ Globexp "vendor/**" = Value re
  /\ snd (failing (patternRoot "vendor/**")) = Some "permission denied"
  /\ Glob failing (["**/*.go"] ++ "vendor/**" :: ["!main.go"]) = Failed "permission denied".
Proof.
  intros failing st re.
  split; [vm_compute; reflexivity|]. split; [reflexivity|].
  split; [vm_compute; reflexivity|]. split; [reflexivity|].
  apply (Glob_walk_error failing ["**/*.go"] "vendor/**" ["!main.go"] st re "permission denied");
    vm_compute; reflexivity.
Defined.


(** X17.  When the expression of a pattern does not compile, [Glob]
    panics with the panic of [regexp.MustCompile] for the source that
    [Globexp] wrote, whatever patterns follow; for an inclusion pattern
    this comes before its walk. *)
Theorem Glob_compile_panic {FileInfo error : Type}
    (Walk : string -> list (string * FileInfo * option error) * option error)
    (pre : list string) (q : string) (post : list string)
    (st : globState FileInfo) (v : panic) :
  globLoop Walk patternRoot pre (mkGlobState ∅ []) = Continue st ->
  Globexp (if HasPrefix q "!" then dropFirst q else q) = Panics v ->
  Glob Walk (pre ++ q :: post) = Panicked v
  /\ exists e, v = PanicCompile (globexpSource (if HasPrefix q "!" then dropFirst q else q)) e.
Proof.
  intros Hpre Hq. split; [|exact (MustCompile_panic _ _ Hq)].
  unfold Glob, globWith.
  rewrite globLoop_app, Hpre. cbn [globLoop]. unfold globPattern.
  destruct (HasPrefix q "!"); now rewrite Hq.
Qed.

Lemma Glob_compile_panic_witness :
  let st := match globLoop sampleWalk patternRoot ["**/*.go"] (mkGlobState ∅ []) with
            | Continue st => st
            | _ => mkGlobState ∅ []
            end in
  let v := PanicCompile "^(a$" regexp.ErrMissingParen in
  globLoop sampleWalk patternRoot ["**/*.go"] (mkGlobState ∅ []) = Continue st
  /\ Globexp (if HasPrefix "!{a" "!" then dropFirst "!{a" else "!{a") = Panics v
  /\ Glob sampleWalk (["**/*.go"] ++ "!{a" :: ["vendor/**"]) = Panicked v
  /\ exists e, v = PanicCompile
                     (globexpSource (if HasPrefix "!{a" "!" then dropFirst "!{a" else "!{a")) e.
Proof.
  intros st v. split; [vm_compute; reflexivity|]. split; [vm_compute; reflexivity|].
  apply (Glob_compile_panic sampleWalk ["**/*.go"] "!{a" ["vendor/**"] st v);
    vm_compute; reflexivity.
Defined.


(** X18.  Negations at the head of the list remove nothing: [Glob]
    returns the same assets with and without them, and it returns no
    asset when the list has negations only. *)
Theorem Glob_leading_negations {FileInfo error : Type}
    (Walk : string -> list (string * FileInfo * option error) * option error)
    (negs patterns : list string) (keys : list (FileAsset FileInfo)) (rs : list RegexpInfo) :
  Forall (fun q => HasPrefix q "!" = true) negs ->
  Glob Walk (negs ++ patterns) = Returned keys rs ->
  (exists rs', Glob Walk patterns = Returned keys rs')
  /\ (patterns = [] -> keys = []).
Proof.
  intros HF. unfold Glob, globWith. rewrite globLoop_app.
  destruct (globLoop Walk patternRoot negs (mkGlobState ∅ [])) as [st0| |] eqn:Hnegs;
    try discriminate.
  pose proof (globLoop_negations Walk negs _ _ HF Hnegs eq_refl) as Hm0.
  destruct (globLoop Walk patternRoot patterns st0) as [st| |] eqn:Hloop; try discriminate.
  intros [= <- <-].
  destruct (globLoop_same_map Walk patterns st0 (mkGlobState ∅ []) st Hm0 Hloop)
    as (st2 & Hloop2 & Hm).
  split.
  - rewrite Hloop2. exists (regexps st2). now rewrite Hm.
  - intros ->. injection Hloop as <-. rewrite Hm0. reflexivity.
Qed.

Lemma Glob_leading_negations_witness :
  let ps := ["!vendor/**"] ++ ["**/*.go"] in
  let keys := match Glob sampleWalk ps with
              | Returned keys _ => keys
              | _ => []
              end in
  let rs := match Glob sampleWalk ps with
            | Returned _ rs => rs
            | _ => []
            end in
  Forall (fun q => HasPrefix q "!" = true) ["!vendor/**"]
  /\ Glob sampleWalk ps = Returned keys rs
  /\ (exists rs', Glob sampleWalk ["**/*.go"] = Returned keys rs')
  /\ (["**/*.go"] = [] -> keys = []).
Proof.
  intros ps keys rs.
  assert (HF : Forall (fun q => HasPrefix q "!" = true) ["!vendor/**"])
    by (repeat constructor).
  split; [exact HF|]. split; [vm_compute; reflexivity|].
  apply (Glob_leading_negations sampleWalk ["!vendor/**"] ["**/*.go"] keys rs);
    [exact HF | vm_compute; reflexivity].
Defined.


(** X19.  A negation at the end of the list filters the result: the
    assets returned are those returned without it whose path its
    expression does not match, and its expression is appended to the
    list of expressions with [Negate] set. *)
Theorem Glob_append_negation {FileInfo error : Type}
    (Walk : string -> list (string * FileInfo * option error) * option error)
    (patterns : list string) (neg : string) (re : regexp.Regexp)
    (keys keys' : list (FileAsset FileInfo)) (rs rs' : list RegexpInfo) :
  Glob Walk patterns = Returned keys rs ->
  Globexp neg = Value re ->
  Glob Walk (patterns ++ ["!" +:+ neg]) = Returned keys' rs' ->
  rs' = rs ++ [mkRegexpInfo re true]
  /\ forall a, a ∈ keys' <-> a ∈ keys /\ regexp.MatchString re (Path a) = false.
Proof.
  unfold Glob, globWith. rewrite globLoop_app.
  destruct (globLoop Walk patternRoot patterns (mkGlobState ∅ [])) as [st| |] eqn:Hloop;
    try discriminate.
  intros [= <- <-] Hre. cbn [globLoop]. unfold globPattern.
  rewrite HasPrefix_bang. change (dropFirst ("!" +:+ neg)) with neg. rewrite Hre.
  intros [= <- <-]. cbn [m regexps]. split; [reflexivity|].
  assert (Hk : keyed (m st)) by (eapply globLoop_keyed; [exact Hloop | apply keyed_empty]).
  intros a. rewrite !collectKeys_elem. split.
  - intros [p Hp]. rewrite removeMatches_lookup in Hp.
    destruct (m st !! p) as [it|] eqn:E; [|discriminate]. cbn in Hp.
    destruct (regexp.MatchString re p) eqn:Hm; [discriminate|]. injection Hp as ->.
    rewrite (Hk p a E). split; [now exists p | exact Hm].
  - intros [[p Hp] Hm]. exists p. rewrite removeMatches_lookup, Hp. cbn.
    rewrite (Hk p a Hp) in Hm. now rewrite Hm.
Qed.

Lemma Glob_append_negation_witness :
  let ps := ["**/*.go"] in
  let keys := match Glob sampleWalk ps with
              | Returned keys _ => keys
              | _ => []
              end in
  let rs := match Glob sampleWalk ps with
            | Returned _ rs => rs
            | _ => []
            end in
  let re := match Globexp "vendor/**" with
            | Value re => re
            | Panics _ => regexp.mkRegexp "" regexp.OpEmptyMatch
            end in
  let keys' := match Glob sampleWalk (ps ++ ["!" +:+ "vendor/**"]) with
               | Returned keys _ => keys
               | _ => []
               end in
  let rs' := match Glob sampleWalk (ps ++ ["!" +:+ "vendor/**"]) with
             | Returned _ rs => rs
             | _ => []
             end in
  Glob sampleWalk ps = Returned keys rs
  /\ Globexp "vendor/**" = Value re
  /\ Glob sampleWalk (ps ++ ["!" +:+ "vendor/**"]) = Returned keys' rs'
  /\ rs' = rs ++ [mkRegexpInfo re true]
  /\ forall a, a ∈ keys' <-> a ∈ keys /\ regexp.MatchString re (Path a) = false.
Proof.
  intros ps keys rs re keys' rs'.
  split; [vm_compute; reflexivity|]. split; [vm_compute; reflexivity|].
  split; [vm_compute; reflexivity|].
  apply (Glob_append_negation sampleWalk ps "vendor/**" re keys keys' rs rs');
    vm_compute; reflexivity.
Defined.

(** X20.  When [Glob] returns, a path is among the returned assets
    exactly when some inclusion pattern of the list inserts it, that is,
    the walk from the root of the pattern reports the path without error
    and the expression of the pattern matches it, and no negation after
    that pattern matches the path. *)
Theorem Glob_returns_path_iff {FileInfo error : Type}
    (Walk : string -> list (string * FileInfo * option error) * option error)
    (patterns : list string) (keys : list (FileAsset FileInfo)) (rs : list RegexpInfo)
    (p : string) :
  Glob Walk patterns = Returned keys rs ->
  (exists a, a ∈ keys /\ Path a = p)
  <-> exists pre inc post,
        patterns = pre ++ inc :: post
        /\ reinserts Walk p inc = true
        /\ existsb (removes p) post = false.
Proof.
  unfold Glob, globWith.
  destruct (globLoop Walk patternRoot patterns (mkGlobState ∅ [])) as [st| |] eqn:Hloop;
    try discriminate.
  intros [= <- <-]. split.
  - intros (a & Ha & Hp). apply collectKeys_elem in Ha as [q Hq].
    assert (Hk : keyed (m st)) by (eapply globLoop_keyed; [exact Hloop | apply keyed_empty]).
    rewrite (Hk q a Hq) in Hp. subst q.
    destruct (globLoop_origin Walk _ _ _ p a Hloop Hq)
      as [(H & _) | (pre & inc & post & info & -> & Hre & _ & Hrm & _)].
    + cbn in H. rewrite lookup_empty in H. discriminate.
    + now exists pre, inc, post.
  - intros (pre & inc & post & -> & Hre & Hrm).
    destruct (globLoop_present Walk pre inc post _ st p Hloop Hre Hrm) as (a & Ha & Hp).
    exists a. split; [|exact Hp]. apply collectKeys_elem. now exists p.
Qed.

Lemma Glob_returns_path_iff_witness :
  let ps := ["**/*.go"; "!vendor/**"; "vendor/keep.go"] in
  let keys := match Glob sampleWalk ps with
              | Returned keys _ => keys
              | _ => []
              end in
  let rs := match Glob sampleWalk ps with
            | Returned _ rs => rs
            | _ => []
            end in
  Glob sampleWalk ps = Returned keys rs
  /\ ((exists a, a ∈ keys /\ Path a = "vendor/lib.go")
      <-> exists pre inc post,
            ps = pre ++ inc :: post
            /\ reinserts sampleWalk "vendor/lib.go" inc = true
            /\ existsb (removes "vendor/lib.go") post = false).
Proof.
  intros ps keys rs. split; [vm_compute; reflexivity|].
  apply (Glob_returns_path_iff sampleWalk ps keys rs "vendor/lib.go"). vm_compute; reflexivity.
Defined.
